(** * troi.filters: the filtering elements of the playlist pipeline

    A shallow embedding of [troi/filters.py].  Every [read] method is
    translated statement by statement: a [for] loop is a left fold over
    the input list whose accumulator is the tuple of the loop's mutable
    variables, [results.append(r)] is [results ++ [r]], a Python [dict]
    used as a set of keys is a [gmap], a [set] is a [gset], the
    [defaultdict(list)] of the limiter (whose iteration order is the
    insertion order) is an association list, and an exception is the
    [Raise] branch of [result]. *)

From Stdlib Require Import ZArith Lia.
From stdpp Require Import base option list strings gmap sorting.

Local Open Scope Z_scope.

(* [set_solver] clears hypotheses it has already used up. *)
#[local] Set Warnings "-clear-no-such-hyp".

(** ** Entities *)

(** Modelled from the spec: the class [troi.Artist] is defined in
    [troi/__init__.py], which is not among the sources; the spec (section 3)
    gives it an optional artist-credit identifier and an optional name.
    The identifier is an integer (a MusicBrainz row id). *)
Record Artist := mkArtist {
  artist_credit_id : option Z;
  artist_name : option string
}.

(** Modelled from the spec: the class [troi.Recording] (also in
    [troi/__init__.py]).  The spec (section 3) gives it a required identity
    [mbid] and optional [name], [year], [ranking] and [artist].  Years and
    rankings are integers. *)
Record Recording := mkRecording {
  mbid : string;
  name : option string;
  year : option Z;
  ranking : option Z;
  artist : option Artist
}.

#[global] Instance Artist_eq_dec : EqDecision Artist.
Proof. solve_decision. Defined.

#[global] Instance Recording_eq_dec : EqDecision Recording.
Proof. solve_decision. Defined.

(** The entity types an element declares in [inputs()] and [outputs()]. *)
Inductive entity_type := RecordingT | ArtistT.

(** ** Exceptions and results *)

(** The exceptions the code of [filters.py] can raise.  [PipelineError] is
    the package's own (imported from [troi]); the others are Python's. *)
Inductive exn :=
  | PipelineError (msg : string)
  | KeyError
  | AttributeError
  | TypeError
  | IndexError.

Inductive result (A : Type) :=
  | Ok (a : A)
  | Raise (e : exn).
Arguments Ok {A} a.
Arguments Raise {A} e.

(** Sequencing: an exception skips the rest.  With these instances the
    notation [x ← m; k] reads as a statement followed by the rest of the
    block. *)
#[global] Instance result_ret : MRet result := fun A a => Ok a.

#[global] Instance result_bind : MBind result := fun A B f m =>
  match m with
  | Ok a => f a
  | Raise e => Raise e
  end.

(** [try: body except KeyError: handler]: only a [KeyError] is caught. *)
Definition try_except_KeyError {A} (body : result A) (handler : result A)
  : result A :=
  match body with
  | Raise KeyError => handler
  | other => other
  end.

(** A [for] loop whose body may raise: the first exception ends the loop. *)
Fixpoint for_each {A S} (body : S → A → result S) (xs : list A) (s : S)
  : result S :=
  match xs with
  | [] => Ok s
  | x :: xs' => s' ← body s x ; for_each body xs' s'
  end.

(** [inputs[0]]: the first positional input sequence. *)
Definition inputs_0 {A} (inputs : list (list A)) : result (list A) :=
  match inputs with
  | [] => Raise IndexError
  | recordings :: _ => Ok recordings
  end.

(** ** Python truth values *)

(** [not x] for an optional integer: [None] and [0] are both false. *)
Definition truthy_int (x : option Z) : bool :=
  match x with
  | None => false
  | Some z => negb (z =? 0)
  end.

(** [not x] for an optional object that defines neither [__bool__] nor
    [__len__] (an [Artist]): only [None] is false. *)
Definition truthy_obj {A} (x : option A) : bool :=
  match x with
  | None => false
  | Some _ => true
  end.

(** [x is None] *)
Definition is_None {A} (x : option A) : bool :=
  match x with
  | None => true
  | Some _ => false
  end.

(** ** ArtistCreditFilterElement *)

Module ArtistCreditFilterElement.

Record t := mk {
  artist_credit_ids : list Z;
  include : bool
}.

(** [__init__(self, artist_credit_ids, include=False)] *)
Definition init (ids : list Z) : t := mk ids false.

Definition inputs : list entity_type := [RecordingT].
Definition outputs : list entity_type := [RecordingT].

(** Modelled from the spec: [troi.Element.debug] is not among the
    sources; the spec (section 6) has a diagnostics sink that receives the
    message and does not affect control flow.  The sink is the list of
    messages emitted so far. *)
Definition debug (log : list string) (msg : string) : list string :=
  log ++ [msg].

(** The first loop: [ac_index[ac] = 1] for every configured id.  Storing
    into a [dict] raises no [KeyError], so the handler of the [try] is
    never entered. *)
Definition build_index (ids : list Z) : gmap Z Z :=
  foldl (fun ac_index ac => <[ac := 1]> ac_index) ∅ ids.

(** One iteration of the second loop, on the pair (results, log).  The
    guard [not r.artist or not r.artist.artist_credit_id] skips a
    recording without artist and one whose credit id is [None] or [0];
    past the guard the id is an integer. *)
Definition step (self : t) (ac_index : gmap Z Z)
    (st : list Recording * list string) (r : Recording)
  : list Recording * list string :=
  let '(results, log) := st in
  let skip :=
    (results,
     debug log ("recording " +:+ mbid r +:+ " has not artist credit id")%string) in
  match artist r with
  | None => skip
  | Some a =>
      if negb (truthy_int (artist_credit_id a)) then skip
      else
        let in_index :=
          match artist_credit_id a with
          | Some id => bool_decide (is_Some (ac_index !! id))
          | None => false
          end in
        if include self
        then if in_index then (results ++ [r], log) else (results, log)
        else if negb in_index then (results ++ [r], log) else (results, log)
  end.

(** [read(self, inputs)]: the result and the diagnostics emitted. *)
Definition read (self : t) (inputs : list (list Recording))
  : result (list Recording) * list string :=
  match inputs_0 inputs with
  | Raise e => (Raise e, [])
  | Ok recordings =>
      let ac_index := build_index (artist_credit_ids self) in
      let '(results, log) := foldl (step self ac_index) ([], []) recordings in
      (Ok results, log)
  end.

End ArtistCreditFilterElement.

(** ** DuplicateRecordingFilterElement *)

Module DuplicateRecordingFilterElement.

Definition inputs : list entity_type := [RecordingT].
Definition outputs : list entity_type := [RecordingT].

(** One iteration, on the pair (output, seen). *)
Definition step (st : list Recording * gset string) (rec : Recording)
  : list Recording * gset string :=
  let '(output, seen) := st in
  if bool_decide (mbid rec ∉ seen)
  then (output ++ [rec], {[mbid rec]} ∪ seen)
  else (output, seen).

Definition read (inputs : list (list Recording)) (debug : bool)
  : result (list Recording) :=
  recordings ← inputs_0 inputs ;
  Ok (foldl step ([], ∅) recordings).1.

End DuplicateRecordingFilterElement.

(** ** ConsecutiveRecordingFilterElement *)

Module ConsecutiveRecordingFilterElement.

Definition inputs : list entity_type := [RecordingT].
Definition outputs : list entity_type := [RecordingT].

(** One iteration, on the pair (output, last_mbid); [last_mbid] starts
    as [None], which differs from every mbid. *)
Definition step (st : list Recording * option string) (rec : Recording)
  : list Recording * option string :=
  let '(output, last_mbid) := st in
  (if bool_decide (Some (mbid rec) ≠ last_mbid)
   then output ++ [rec] else output,
   Some (mbid rec)).

Definition read (inputs : list (list Recording)) (debug : bool)
  : result (list Recording) :=
  recordings ← inputs_0 inputs ;
  Ok (foldl step ([], None) recordings).1.

End ConsecutiveRecordingFilterElement.

(** ** EmptyRecordingFilterElement *)

Module EmptyRecordingFilterElement.

Definition inputs : list entity_type := [RecordingT].
Definition outputs : list entity_type := [RecordingT].

(** [rec.artist and rec.artist.name is None] *)
Definition artist_nameless (rec : Recording) : bool :=
  match artist rec with
  | None => false
  | Some a => is_None (artist_name a)
  end.

(** One iteration, on the pair (output, printed lines); the line is
    printed only under [debug]. *)
Definition step (debug : bool) (st : list Recording * list string)
    (rec : Recording) : list Recording * list string :=
  let '(output, printed) := st in
  if is_None (name rec) || artist_nameless rec
  then (output,
        if debug
        then printed ++ [("recording " +:+ mbid rec +:+ " has no metadata, filtering")%string]
        else printed)
  else (output ++ [rec], printed).

Definition read_io (inputs : list (list Recording)) (debug : bool)
  : result (list Recording) * list string :=
  match inputs_0 inputs with
  | Raise e => (Raise e, [])
  | Ok recordings =>
      let '(output, printed) := foldl (step debug) ([], []) recordings in
      (Ok output, printed)
  end.

Definition read (inputs : list (list Recording)) (debug : bool)
  : result (list Recording) :=
  (read_io inputs debug).1.

End EmptyRecordingFilterElement.

(** ** YearRangeFilterElement *)

Module YearRangeFilterElement.

Record t := mk {
  start_year : Z;
  end_year : Z;
  inverse : bool
}.

(** [__init__(self, start_year, end_year, inverse=False)] *)
Definition init (s e : Z) : t := mk s e false.

Definition inputs : list entity_type := [RecordingT].
Definition outputs : list entity_type := [RecordingT].

(** One iteration of the loop on [results].  The guard
    [if not r.year: continue] skips a year that is [None] or [0]. *)
Definition step (self : t) (results : list Recording) (r : Recording)
  : list Recording :=
  if negb (truthy_int (year r)) then results
  else
    match year r with
    | None => results
    | Some y =>
        if inverse self
        then if (y <? start_year self) || (y >? end_year self)
             then results ++ [r] else results
        else if (y >=? start_year self) && (y <=? end_year self)
             then results ++ [r] else results
    end.

Definition read (self : t) (inputs : list (list Recording)) (debug : bool)
  : result (list Recording) :=
  recordings ← inputs_0 inputs ;
  Ok (foldl (step self) [] recordings).

End YearRangeFilterElement.

(** ** ArtistCreditLimiterElement *)

Module ArtistCreditLimiterElement.

Record t := mk {
  count : Z;
  exclude_lower_ranked : bool
}.

(** [__init__(self, count=2, exclude_lower_ranked=True)] *)
Definition init : t := mk 2 true.

Definition inputs : list entity_type := [RecordingT].
Definition outputs : list entity_type := [RecordingT].

(** The pairs [(rec.mbid, rec.ranking)] stored in the index. *)
Definition entry : Type := string * option Z.

(** [defaultdict(list)] keyed by [artist_credit_id] (which may be [None]),
    in insertion order. *)
Definition index : Type := list (option Z * list entry).

(** [ac_index[key].append(e)]: a missing key is created with the empty
    list, so no [KeyError] is raised. *)
Fixpoint dd_append (key : option Z) (e : entry) (ac_index : index) : index :=
  match ac_index with
  | [] => [(key, [e])]
  | (k, v) :: rest =>
      if decide (k = key) then (k, v ++ [e]) :: rest
      else (k, v) :: dd_append key e rest
  end.

(** One iteration of the first loop, on (ac_index, all_have_rankings).
    [rec.artist.artist_credit_id] raises [AttributeError] when
    [rec.artist] is [None]; the handler catches [KeyError] only.  The
    message of its [PipelineError] is the element's name followed by the
    text below; the name is left out. *)
Definition group_step (st : index * bool) (rec : Recording)
  : result (index * bool) :=
  let '(ac_index, all_have_rankings) := st in
  try_except_KeyError
    (match artist rec with
     | None => Raise AttributeError
     | Some a =>
         Ok (dd_append (artist_credit_id a) (mbid rec, ranking rec) ac_index,
             if is_None (ranking rec) then false else all_have_rankings)
     end)
    (Raise (PipelineError
       " needs to have all input recordings to have artist.artist_credit_id defined!")).

(** [a < b] on rankings, as [sorted] uses it. *)
Definition key_ltb (a b : option Z) : bool :=
  match a, b with
  | Some x, Some y => x <? y
  | _, _ => false
  end.

(** Stable insertion of [e] in front of a sorted list of later elements:
    [e] passes the elements that must come first ([y < e] ascending,
    [e < y] descending) and stays in front of equal ones. *)
Fixpoint insert_by (reverse : bool) (e : entry) (l : list entry) : list entry :=
  match l with
  | [] => [e]
  | y :: l' =>
      if (if reverse then key_ltb e.2 y.2 else key_ltb y.2 e.2)
      then y :: insert_by reverse e l'
      else e :: l
  end.

(** The stable sort: every element is inserted in front of the sorted
    elements that followed it. *)
Definition stable_sort (reverse : bool) (l : list entry) : list entry :=
  foldr (insert_by reverse) [] l.

(** [sorted(l, key=itemgetter(1), reverse=reverse)]: a stable sort on the
    ranking; comparing [None] raises [TypeError] as soon as there are two
    elements to compare. *)
Definition sorted (reverse : bool) (l : list entry) : result (list entry) :=
  if bool_decide (2 ≤ length l)%nat && existsb (fun e => is_None e.2) l
  then Raise TypeError
  else Ok (stable_sort reverse l).

(** The random source: the raw draws still to come.  [randbelow n] reduces
    the next draw below [n]; a source that has run out draws 0.  The
    properties below use of the shuffle only that it permutes the list. *)
Definition randbelow (n : nat) (tape : list nat) : nat * list nat :=
  match tape with
  | [] => (0%nat, [])
  | d :: tape' => ((d mod n)%nat, tape')
  end.

(** [x[i], x[j] = x[j], x[i]] *)
Definition swap {A} (i j : nat) (x : list A) : list A :=
  match x !! i, x !! j with
  | Some xi, Some xj => <[j := xi]> (<[i := xj]> x)
  | _, _ => x
  end.

(** [random.shuffle(x)]:
    [for i in reversed(range(1, len(x))): j = randbelow(i + 1); swap]. *)
Definition shuffle {A} (x : list A) (tape : list nat) : list A * list nat :=
  foldl (fun st i =>
           let '(j, tape') := randbelow (i + 1) st.2 in
           (swap i j st.1, tape'))
        (x, tape) (rev (seq 1 (length x - 1))).

(** [l[:n]]: a negative [n] counts from the end. *)
Definition slice_to {A} (n : Z) (l : list A) : list A :=
  if 0 <=? n then take (Z.to_nat n) l
  else take (Z.to_nat (Z.of_nat (length l) + n)) l.

(** One iteration of the second loop: the group of [key] is ordered and
    cut.  The state is the index rebuilt so far and the random source. *)
Definition limit_step (self : t) (all_have_rankings : bool)
    (st : index * list nat) (kv : option Z * list entry)
  : result (index * list nat) :=
  ordered ← (if all_have_rankings
             then l ← sorted (exclude_lower_ranked self) kv.2; Ok (l, st.2)
             else Ok (shuffle kv.2 st.2));
  Ok (st.1 ++ [(kv.1, slice_to (count self) ordered.1)], ordered.2).

(** The third loop: the mbids of all groups. *)
Definition pass_recs_of (ac_index : index) : list string :=
  foldl (fun pass_recs kv =>
           foldl (fun pass_recs e => pass_recs ++ [e.1]) pass_recs kv.2)
        [] ac_index.

(** The fourth loop. *)
Definition select (pass_recs : list string) (recordings : list Recording)
  : list Recording :=
  foldl (fun results r =>
           if bool_decide (mbid r ∈ pass_recs) then results ++ [r]
           else results)
        [] recordings.

(** [read(self, inputs)], given the random draws [shuffle] will make. *)
Definition read (self : t) (inputs : list (list Recording)) (tape : list nat)
  : result (list Recording) :=
  recordings ← inputs_0 inputs;
  grouped ← for_each group_step recordings (([] : index), true);
  limited ← for_each (limit_step self grouped.2) grouped.1 (([] : index), tape);
  Ok (select (pass_recs_of limited.1) recordings).

End ArtistCreditLimiterElement.

(** * Sample entities *)

Definition ac (id : Z) : Artist := mkArtist (Some id) (Some "artist"%string).
Definition rec_of (m : string) (rank : option Z) (a : option Artist) : Recording :=
  mkRecording m (Some m) None rank a.

(** * Vocabulary of the statements *)

(** The credit id a recording is attributed to, when it has one. *)
Definition credit (r : Recording) : option Z :=
  a ← artist r; artist_credit_id a.

(** The recordings the filter removes. *)
Definition no_metadata (rec : Recording) : Prop :=
  name rec = None ∨ ∃ a, artist rec = Some a ∧ artist_name a = None.

#[global] Instance no_metadata_dec rec : Decision (no_metadata rec).
Proof.
  unfold no_metadata.
  destruct (name rec); [|left; by left].
  destruct (artist rec) as [a|].
  - destruct (artist_name a) eqn:Ha.
    + right. intros [?|(a' & [= <-] & ?)]; congruence.
    + left. right. eauto.
  - right. intros [?|(a' & ? & ?)]; congruence.
Defined.

(** Three recordings for the empty-metadata filter: no name, a nameless
    artist, no artist. *)
Definition sample_unnamed : Recording :=
  mkRecording "u" None None None (Some (ac 1)).
Definition sample_nameless_artist : Recording :=
  mkRecording "n" (Some "song"%string) None None (Some (mkArtist (Some 1) None)).
Definition sample_no_artist : Recording :=
  mkRecording "s" (Some "song"%string) None None None.

(** ** Year range *)

(** The test of the year-range filter on a year that is present. *)
Definition year_passes (self : YearRangeFilterElement.t) (y : Z) : Prop :=
  if YearRangeFilterElement.inverse self
  then y < YearRangeFilterElement.start_year self
       ∨ y > YearRangeFilterElement.end_year self
  else YearRangeFilterElement.start_year self ≤ y
       ∧ y ≤ YearRangeFilterElement.end_year self.

(** The recordings the year-range filter keeps: the year is present, is
    not zero, and passes the test. *)
Definition year_kept (self : YearRangeFilterElement.t) (r : Recording) : Prop :=
  ∃ y, year r = Some y ∧ y ≠ 0 ∧ year_passes self y.

#[global] Instance year_passes_dec self y : Decision (year_passes self y).
Proof. unfold year_passes. destruct (YearRangeFilterElement.inverse self); apply _. Defined.

#[global] Instance year_kept_dec self r : Decision (year_kept self r).
Proof.
  unfold year_kept. destruct (year r) as [y|].
  - destruct (decide (y ≠ 0 ∧ year_passes self y)) as [H|H].
    + left. exists y. tauto.
    + right. intros (y' & [= <-] & ?). tauto.
  - right. by intros (y & ? & _).
Defined.

(** The year-range property as the specification words it: presence of the
    year alone decides whether the range test applies. *)
Definition year_range_as_stated : Prop :=
  ∀ (self : YearRangeFilterElement.t) (recordings : list Recording) (debug : bool),
  ∃ out, YearRangeFilterElement.read self [recordings] debug = Ok out ∧
    (out `sublist_of` recordings) ∧
    ∀ r, r ∈ recordings →
      (year r = None → r ∉ out) ∧
      (∀ y, year r = Some y → (r ∈ out ↔ year_passes self y)).

Definition sample_year (y : option Z) : Recording :=
  mkRecording "y" (Some "song"%string) y None None.

(** ** Artist-credit inclusion and exclusion *)

(** The test of the inclusion/exclusion filter on a credit id. *)
Definition credit_passes (self : ArtistCreditFilterElement.t) (id : Z) : Prop :=
  (ArtistCreditFilterElement.include self = true
   ∧ id ∈ ArtistCreditFilterElement.artist_credit_ids self)
  ∨ (ArtistCreditFilterElement.include self = false
     ∧ id ∉ ArtistCreditFilterElement.artist_credit_ids self).

(** The recordings the filter skips with a diagnostic: no artist, no credit
    id, or the credit id 0. *)
Definition credit_skipped (r : Recording) : Prop :=
  credit r = None ∨ credit r = Some 0.

(** The recordings the filter keeps. *)
Definition credit_kept (self : ArtistCreditFilterElement.t) (r : Recording) : Prop :=
  ∃ id, credit r = Some id ∧ id ≠ 0 ∧ credit_passes self id.

#[global] Instance credit_passes_dec self id : Decision (credit_passes self id).
Proof. unfold credit_passes. apply _. Defined.

#[global] Instance credit_skipped_dec r : Decision (credit_skipped r).
Proof. unfold credit_skipped. apply _. Defined.

#[global] Instance credit_kept_dec self r : Decision (credit_kept self r).
Proof.
  unfold credit_kept. destruct (credit r) as [id|].
  - destruct (decide (id ≠ 0 ∧ credit_passes self id)) as [H|H].
    + left. exists id. tauto.
    + right. intros (id' & [= <-] & ?). tauto.
  - right. by intros (id & ? & _).
Defined.

(** The diagnostic of a skipped recording. *)
Definition skip_message (r : Recording) : string :=
  ("recording " +:+ mbid r +:+ " has not artist credit id")%string.

(** The inclusion/exclusion property as the specification words it: only an
    absent artist or credit id makes the filter skip a recording. *)
Definition credit_filter_as_stated : Prop :=
  ∀ (self : ArtistCreditFilterElement.t) (recordings : list Recording),
  ∃ out log, ArtistCreditFilterElement.read self [recordings] = (Ok out, log) ∧
    (out `sublist_of` recordings) ∧
    ∀ r, r ∈ recordings →
      (credit r = None → r ∉ out) ∧
      (∀ id, credit r = Some id → (r ∈ out ↔ credit_passes self id)).

Definition sample_credit (m : string) (a : option Artist) : Recording :=
  mkRecording m (Some "song"%string) None None a.

(** ** Consecutive and duplicate recordings *)

(** Every input element next to the mbid of the input element before it
    ([None] for the first). *)
Definition with_previous (l : list Recording) : list (option string * Recording) :=
  zip (None :: (Some ∘ mbid <$> l)) l.

(** The element differs in mbid from the input element before it. *)
Definition changes (p : option string * Recording) : Prop :=
  p.1 ≠ Some (mbid p.2).

#[global] Instance changes_dec p : Decision (changes p).
Proof. unfold changes. apply _. Defined.

(** The elements of [l] whose mbid is neither in [seen] nor carried by an
    earlier element of [l]. *)
Fixpoint first_occurrences (seen : gset string) (l : list Recording)
  : list Recording :=
  match l with
  | [] => []
  | r :: l' =>
      if decide (mbid r ∈ seen) then first_occurrences seen l'
      else r :: first_occurrences ({[mbid r]} ∪ seen) l'
  end.

Definition sample_id (m : string) : Recording :=
  mkRecording m (Some m) None None None.

(** ** Artist-credit limiter *)

(** A recording is attributable when it has an artist with a credit id. *)
Definition attributable (r : Recording) : Prop := is_Some (credit r).

(** The pair the limiter stores for a recording. *)
Definition entry_of (r : Recording) : ArtistCreditLimiterElement.entry :=
  (mbid r, ranking r).

(** The group of a key: the entries of the recordings of that credit id, in
    input order. *)
Definition group_of (k : option Z) (l : list Recording)
  : list ArtistCreditLimiterElement.entry :=
  entry_of <$> filter (λ r, credit r = k) l.

(** Every recording of the input has a ranking. *)
Definition all_ranked (l : list Recording) : Prop :=
  Forall (λ r, is_Some (ranking r)) l.

(** The order of two entries in a group sorted by ranking: descending when
    [reverse] is true, ascending otherwise. *)
Definition ranking_order (reverse : bool)
    (e1 e2 : ArtistCreditLimiterElement.entry) : Prop :=
  match e1.2, e2.2 with
  | Some a, Some b => if reverse then b ≤ a else a ≤ b
  | _, _ => False
  end.

(** The mbids left in the index after the second loop. *)
Definition survivors (limited : ArtistCreditLimiterElement.index) : list string :=
  limited ≫= (λ kv, kv.2.*1).

(** What the second loop makes of one item of the index: the same key, and
    the group ordered (sorted by ranking when all recordings are ranked,
    some permutation otherwise) and cut. *)
Definition limited_from (self : ArtistCreditLimiterElement.t) (ranked : bool)
    (kv kv' : option Z * list ArtistCreditLimiterElement.entry) : Prop :=
  kv'.1 = kv.1 ∧
  ∃ ordered,
    ordered ≡ₚ kv.2 ∧
    kv'.2 = ArtistCreditLimiterElement.slice_to
              (ArtistCreditLimiterElement.count self) ordered ∧
    (ranked = true →
     ordered = ArtistCreditLimiterElement.stable_sort
                 (ArtistCreditLimiterElement.exclude_lower_ranked self) kv.2).

(** [ac_index[key]] read without creating the key. *)
Fixpoint dd_get (key : option Z) (ac_index : ArtistCreditLimiterElement.index)
  : list ArtistCreditLimiterElement.entry :=
  match ac_index with
  | [] => []
  | (k, v) :: rest => if decide (k = key) then v else dd_get key rest
  end.

(** The number of recordings of credit id [id] in a sequence. *)
Definition credit_count (id : Z) (l : list Recording) : Z :=
  Z.of_nat (length (filter (λ r, credit r = Some id) l)).

(** The cap of the limiter as the specification words it: for every
    attributable input and every configuration. *)
Definition limiter_cap_as_stated : Prop :=
  ∀ (self : ArtistCreditLimiterElement.t) (recordings : list Recording)
    (tape : list nat),
  Forall attributable recordings →
  ∃ out, ArtistCreditLimiterElement.read self [recordings] tape = Ok out ∧
    ∀ id, Some id ∈ credit <$> out →
      credit_count id out ≤ ArtistCreditLimiterElement.count self.

(** The edge cases of the limiter as the specification words them: a count
    of zero or less empties the output. *)
Definition limiter_edges_as_stated : Prop :=
  ∀ (self : ArtistCreditLimiterElement.t) (recordings : list Recording)
    (tape : list nat),
  Forall attributable recordings →
  ∃ out, ArtistCreditLimiterElement.read self [recordings] tape = Ok out ∧
    (ArtistCreditLimiterElement.count self ≤ 0 → out = []) ∧
    ∀ id, credit_count id recordings < ArtistCreditLimiterElement.count self →
      filter (λ r, credit r = Some id) out
      = filter (λ r, credit r = Some id) recordings.

Definition sample_ranked (m : string) (rank : Z) (id : Z) : Recording :=
  rec_of m (Some rank) (Some (ac id)).

(** ** Chains of elements *)

(** The sequence the inclusion/exclusion filter returns, without the
    diagnostics.  A chain of elements is a chain of binds: the output of one
    [read] is the single input of the next, and an exception ends the
    chain. *)
Definition credit_output (self : ArtistCreditFilterElement.t)
    (recordings : list Recording) : result (list Recording) :=
  (ArtistCreditFilterElement.read self [recordings]).1.

(** The year of the recording passes the guard of the year-range filter:
    it is present and not zero. *)
Definition year_usable (r : Recording) : Prop :=
  ∃ y, year r = Some y ∧ y ≠ 0.

#[global] Instance year_usable_dec r : Decision (year_usable r).
Proof.
  unfold year_usable. destruct (year r) as [y|].
  - destruct (decide (y ≠ 0)) as [H|H].
    + left. by exists y.
    + right. intros (y' & [= <-] & ?). done.
  - right. by intros (y & ? & _).
Defined.

(** No two neighbours of the sequence have the same mbid. *)
Fixpoint adjacent_distinct (l : list Recording) : Prop :=
  match l with
  | a :: (b :: _) as rest => mbid a ≠ mbid b ∧ adjacent_distinct rest
  | _ => True
  end.

(** The elements of [l] that differ in mbid from the element before them,
    [last] being the mbid before the first. *)
Fixpoint collapse (last : option string) (l : list Recording) : list Recording :=
  match l with
  | [] => []
  | r :: l' =>
      if decide (Some (mbid r) = last) then collapse (Some (mbid r)) l'
      else r :: collapse (Some (mbid r)) l'
  end.

(** The mbids of a sequence, as a set. *)
Definition mbids (l : list Recording) : gset string :=
  list_to_set (mbid <$> l).

(** The line the empty-metadata filter prints for a removed recording. *)
Definition no_metadata_message (rec : Recording) : string :=
  ("recording " +:+ mbid rec +:+ " has no metadata, filtering")%string.

(** ** More on the limiter *)

(** The recording has an artist (with or without a credit id): the limiter
    groups it under its credit id, which may be [None]. *)
Definition has_artist (r : Recording) : Prop := is_Some (artist r).

(** The number of recordings grouped under a key. *)
Definition key_count (k : option Z) (l : list Recording) : Z :=
  Z.of_nat (length (filter (λ r, credit r = k) l)).

(** The length of [l[:n]] for a list of length [len]. *)
Definition slice_length (n len : Z) : Z :=
  if 0 <=? n then Z.min n len else Z.max 0 (len + n).

(** The mbids of the sequence a [read] returns. *)
Definition result_mbids (m : result (list Recording)) : result (list string) :=
  match m with
  | Ok out => Ok (mbid <$> out)
  | Raise e => Raise e
  end.

(** The index without the rankings: every key with the mbids of its group. *)
Definition index_mbids (ac_index : ArtistCreditLimiterElement.index)
  : list (option Z * list string) :=
  (λ kv, (kv.1, kv.2.*1)) <$> ac_index.

(** What the limiter reads of a recording when it does not sort: the mbid
    and the artist. *)
Definition without_ranking (r : Recording) : string * option Artist :=
  (mbid r, artist r).

(** The ranking direction of the limiter as the specification words it:
    the sorted groups, and the example of three recordings ranked 10, 5 and
    1 under one credit id, of which nothing more is assumed. *)
Definition limiter_direction_as_stated : Prop :=
  (∀ (self : ArtistCreditLimiterElement.t) (recordings : list Recording)
     (tape : list nat),
     all_ranked recordings → Forall attributable recordings →
     ∃ limited,
       ArtistCreditLimiterElement.read self [recordings] tape
       = Ok (filter (λ r, mbid r ∈ survivors limited) recordings) ∧
       NoDup limited.*1 ∧
       (∀ k, k ∈ limited.*1 ↔ ∃ r, r ∈ recordings ∧ credit r = k) ∧
       Forall (λ kv,
                 ∃ ordered,
                   ordered ≡ₚ group_of kv.1 recordings ∧
                   StronglySorted
                     (ranking_order
                        (ArtistCreditLimiterElement.exclude_lower_ranked self))
                     ordered ∧
                   kv.2 = ArtistCreditLimiterElement.slice_to
                            (ArtistCreditLimiterElement.count self) ordered)
              limited) ∧
  (∀ (r10 r5 r1 : Recording) (id : Z) (recordings : list Recording)
     (tape : list nat),
     ranking r10 = Some 10 → ranking r5 = Some 5 → ranking r1 = Some 1 →
     credit r10 = Some id → credit r5 = Some id → credit r1 = Some id →
     recordings ≡ₚ [r10; r5; r1] →
     ArtistCreditLimiterElement.read (ArtistCreditLimiterElement.mk 1 true)
       [recordings] tape = Ok [r10] ∧
     ArtistCreditLimiterElement.read (ArtistCreditLimiterElement.mk 1 false)
       [recordings] tape = Ok [r1]).

(** * Properties *)

(** ** Loops that append *)

Section append_loops.
Context {A : Type}.

(** A loop that appends the elements passing a test is a [filter]. *)
Lemma foldl_append_filter (P : A → Prop) `{!∀ x, Decision (P x)}
    (body : list A → A → list A) (l acc : list A) :
  (∀ acc x, body acc x = if decide (P x) then acc ++ [x] else acc) →
  foldl body acc l = acc ++ filter P l.
Proof.
  intros Hbody. revert acc.
  induction l as [|x l IH]; intros acc; simpl.
  - by rewrite app_nil_r.
  - rewrite IH, Hbody, filter_cons.
    destruct (decide (P x)); [by rewrite <- app_assoc|done].
Qed.

Lemma filter_none (P : A → Prop) `{!∀ x, Decision (P x)} (l : list A) :
  (∀ x, x ∈ l → ¬ P x) → filter P l = [].
Proof.
  induction l as [|x l IH]; intros Hl; [done|].
  rewrite filter_cons, decide_False by (apply Hl; constructor).
  apply IH. intros y Hy. apply Hl. by constructor.
Qed.

Lemma filter_all (P : A → Prop) `{!∀ x, Decision (P x)} (l : list A) :
  (∀ x, x ∈ l → P x) → filter P l = l.
Proof.
  induction l as [|x l IH]; intros Hl; [done|].
  rewrite filter_cons, decide_True by (apply Hl; constructor).
  f_equal. apply IH. intros y Hy. apply Hl. by constructor.
Qed.

Lemma filter_singleton_cons {B} `{!EqDecision B} (f : A → B) (b : B) x l :
  filter (λ y, f y ∈ [b]) (x :: l)
  = if decide (f x = b) then x :: filter (λ y, f y ∈ [b]) l
    else filter (λ y, f y ∈ [b]) l.
Proof.
  rewrite filter_cons.
  destruct (decide (f x ∈ [b])) as [Hin|Hout], (decide (f x = b)) as [Heq|Hne];
    try done.
  - by apply list_elem_of_singleton in Hin.
  - destruct Hout. by apply list_elem_of_singleton.
Qed.

Lemma filter_filter_absorb (P Q : A → Prop)
    `{!∀ x, Decision (P x), !∀ x, Decision (Q x)} (l : list A) :
  (∀ x, x ∈ l → Q x → P x) → filter Q (filter P l) = filter Q l.
Proof.
  induction l as [|x l IH]; intros Hl; [done|].
  assert (filter Q (filter P l) = filter Q l) as IH'.
  { apply IH. intros y Hy. apply Hl. by constructor. }
  rewrite (filter_cons P). destruct (decide (P x)) as [HP|HP].
  - rewrite !filter_cons. by rewrite IH'.
  - rewrite IH', filter_cons. destruct (decide (Q x)) as [HQ|HQ]; [|done].
    destruct HP. apply Hl; [constructor|done].
Qed.

End append_loops.

(** ** EmptyRecordingFilterElement *)

Section empty_filter.
Import EmptyRecordingFilterElement.

Lemma no_metadata_test rec :
  is_None (name rec) || artist_nameless rec = true ↔ no_metadata rec.
Proof.
  unfold no_metadata, artist_nameless.
  destruct (name rec) as [n|], (artist rec) as [a|]; simpl;
    [destruct (artist_name a) eqn:Ha; simpl|..]; split;
    try done; try (by left); try (by right; eauto);
    intros [?|(a' & ? & ?)]; congruence.
Qed.

Lemma empty_loop debug l output printed :
  (foldl (step debug) (output, printed) l).1
  = output ++ filter (λ rec, ¬ no_metadata rec) l.
Proof.
  revert output printed.
  induction l as [|rec l IH]; intros output printed; simpl.
  - by rewrite app_nil_r.
  - rewrite filter_cons.
    pose proof (no_metadata_test rec) as Ht.
    destruct (is_None (name rec) || artist_nameless rec).
    + rewrite decide_False by (intros Hn; apply Hn, Ht; done).
      by rewrite IH.
    + rewrite decide_True by (intros Hn; apply Ht in Hn; done).
      rewrite IH. by rewrite <- app_assoc.
Qed.

Lemma empty_read recordings debug :
  read [recordings] debug = Ok (filter (λ rec, ¬ no_metadata rec) recordings).
Proof.
  unfold read, read_io. simpl.
  pose proof (empty_loop debug recordings [] []) as H.
  destruct (foldl (step debug) ([], []) recordings) as [output printed].
  simpl in *. by rewrite H.
Qed.

End empty_filter.

(** C9: the empty-metadata filter returns a subsequence of its input in
    which a recording without name is absent whatever its artist, a named
    recording whose artist is present but nameless is absent, and a named
    recording without artist (or with a named artist) is present. *)
Theorem empty_filter_spec (recordings : list Recording) (debug : bool) :
  ∃ out, EmptyRecordingFilterElement.read [recordings] debug = Ok out ∧
    (out `sublist_of` recordings) ∧
    ∀ rec, rec ∈ recordings →
      (name rec = None → rec ∉ out) ∧
      (∀ a, is_Some (name rec) → artist rec = Some a → artist_name a = None →
            rec ∉ out) ∧
      (is_Some (name rec) → artist rec = None → rec ∈ out) ∧
      (∀ a, is_Some (name rec) → artist rec = Some a →
            is_Some (artist_name a) → rec ∈ out).
Proof.
  eexists. split; [apply empty_read|]. split; [apply sublist_filter|].
  intros rec Hin. repeat split.
  - intros Hn [Hk _]%list_elem_of_filter. apply Hk. by left.
  - intros a _ Ha Hna [Hk _]%list_elem_of_filter. apply Hk. right. eauto.
  - intros [n Hn] Ha. apply list_elem_of_filter. split; [|done].
    intros [?|(a & ? & ?)]; congruence.
  - intros a [n Hn] Ha [an Han]. apply list_elem_of_filter. split; [|done].
    intros [?|(a' & ? & ?)]; congruence.
Qed.

Lemma empty_filter_spec_witness :
  ∃ out,
    EmptyRecordingFilterElement.read
      [[sample_unnamed; sample_no_artist; sample_nameless_artist]] true = Ok out ∧
    (sample_unnamed ∉ out) ∧ (sample_nameless_artist ∉ out) ∧
    sample_no_artist ∈ out.
Proof.
  destruct (empty_filter_spec
              [sample_unnamed; sample_no_artist; sample_nameless_artist] true)
    as (out & Hread & _ & Hall).
  assert (∀ x (l : list Recording), x ∈ x :: l) as H0 by constructor.
  assert (∀ x y (l : list Recording), x ∈ l → x ∈ y :: l) as H1
    by (intros; by constructor).
  exists out. split; [exact Hread|]. split; [|split].
  - apply (Hall sample_unnamed); [apply H0|reflexivity].
  - apply (Hall sample_nameless_artist) with (a := mkArtist (Some 1) None);
      [apply H1, H1, H0|by eexists|reflexivity|reflexivity].
  - apply (Hall sample_no_artist); [apply H1, H0|by eexists|reflexivity].
Defined.

(** ** YearRangeFilterElement *)

Section year_filter.
Import YearRangeFilterElement.

Lemma year_step self results r :
  step self results r
  = if decide (year_kept self r) then results ++ [r] else results.
Proof.
  destruct (decide (year_kept self r)) as [(y & Hy & Hnz & Hp)|Hn];
    unfold step, truthy_int.
  - rewrite Hy. destruct (Z.eqb_spec y 0) as [|_]; [done|]. simpl.
    unfold year_passes in Hp. destruct (inverse self).
    + destruct (Z.ltb_spec y (start_year self)), (Z.gtb_spec y (end_year self));
        simpl; first [done|lia].
    + destruct (Z.geb_spec y (start_year self)), (Z.leb_spec y (end_year self));
        simpl; first [done|lia].
  - destruct (year r) as [y|] eqn:Hy; [|done].
    destruct (Z.eqb_spec y 0) as [|Hnz]; [done|]. simpl.
    assert (¬ year_passes self y) as Hp.
    { intros Hp. apply Hn. by exists y. }
    unfold year_passes in Hp. destruct (inverse self).
    + destruct (Z.ltb_spec y (start_year self)), (Z.gtb_spec y (end_year self));
        simpl; first [done|lia].
    + destruct (Z.geb_spec y (start_year self)), (Z.leb_spec y (end_year self));
        simpl; first [done|lia].
Qed.

Lemma year_read self recordings debug :
  read self [recordings] debug = Ok (filter (year_kept self) recordings).
Proof.
  unfold read. simpl. f_equal.
  by rewrite (foldl_append_filter (year_kept self)) by apply year_step.
Qed.

End year_filter.

(** C6 (as stated): the specification's year-range rule fails for a
    recording of year 0 with the range -5..5: the rule keeps it, the filter
    drops it. *)
Lemma year_range_as_stated_fails : ¬ year_range_as_stated.
Proof.
  intros H.
  destruct (H (YearRangeFilterElement.mk (-5) 5 false) [sample_year (Some 0)] false)
    as (out & Hread & _ & Hall).
  rewrite year_read in Hread. injection Hread as <-.
  destruct (Hall (sample_year (Some 0))) as [_ Hkeep]; [constructor|].
  specialize (Hkeep 0 eq_refl).
  assert (sample_year (Some 0) ∈ filter
            (year_kept (YearRangeFilterElement.mk (-5) 5 false))
            [sample_year (Some 0)]) as Hin.
  { apply Hkeep. unfold year_passes. simpl. lia. }
  apply list_elem_of_filter in Hin as [(y & [= <-] & Hy & _) _]. done.
Qed.

(** C6 (amended): the year-range filter returns a subsequence of its input;
    a recording whose year is absent or zero is dropped whatever [inverse]
    is; a recording with a non-zero year is kept exactly when the year is in
    start_year..end_year (both ends included) if [inverse] is false, and
    exactly when it is below start_year or above end_year if [inverse] is
    true. *)
Theorem year_range_spec (self : YearRangeFilterElement.t)
    (recordings : list Recording) (debug : bool) :
  ∃ out, YearRangeFilterElement.read self [recordings] debug = Ok out ∧
    (out `sublist_of` recordings) ∧
    ∀ r, r ∈ recordings →
      (year r = None ∨ year r = Some 0 → r ∉ out) ∧
      (∀ y, year r = Some y → y ≠ 0 →
         (r ∈ out ↔
          if YearRangeFilterElement.inverse self
          then y < YearRangeFilterElement.start_year self
               ∨ y > YearRangeFilterElement.end_year self
          else YearRangeFilterElement.start_year self ≤ y
               ∧ y ≤ YearRangeFilterElement.end_year self)).
Proof.
  eexists. split; [apply year_read|]. split; [apply sublist_filter|].
  intros r Hin. split.
  - intros Hy [(y & Hy' & Hnz & _) _]%list_elem_of_filter.
    destruct Hy; congruence.
  - intros y Hy Hnz. rewrite list_elem_of_filter. unfold year_kept.
    fold (year_passes self y). split.
    + intros [(y' & Hy' & _ & Hp) _]. congruence.
    + intros Hp. split; [|done]. by exists y.
Qed.

Lemma year_range_spec_witness :
  ∃ out,
    YearRangeFilterElement.read (YearRangeFilterElement.mk 2000 2010 false)
      [[sample_year (Some 1995); sample_year None; sample_year (Some 2005)]]
      false = Ok out ∧
    (sample_year (Some 1995) ∉ out) ∧ (sample_year None ∉ out) ∧
    sample_year (Some 2005) ∈ out.
Proof.
  destruct (year_range_spec (YearRangeFilterElement.mk 2000 2010 false)
      [sample_year (Some 1995); sample_year None; sample_year (Some 2005)] false)
    as (out & Hread & _ & Hall).
  exists out. split; [exact Hread|]. split; [|split].
  - destruct (Hall (sample_year (Some 1995))) as [_ Hk]; [by constructor|].
    intros Hin. apply (Hk 1995) in Hin; [simpl in Hin; lia|done|done].
  - destruct (Hall (sample_year None)) as [Hk _]; [by do 2 constructor|].
    apply Hk. by left.
  - destruct (Hall (sample_year (Some 2005))) as [_ Hk]; [by do 3 constructor|].
    apply (Hk 2005); [done|done|simpl; lia].
Defined.

(** C10: a recording whose year is present and equal to 0 never appears in
    the output of the year-range filter, for every range (also one that
    contains 0) and for both values of [inverse]. *)
Theorem year_zero_excluded (self : YearRangeFilterElement.t)
    (recordings : list Recording) (debug : bool) :
  ∃ out, YearRangeFilterElement.read self [recordings] debug = Ok out ∧
    ∀ r, year r = Some 0 → r ∉ out.
Proof.
  eexists. split; [apply year_read|].
  intros r Hy [(y & Hy' & Hnz & _) _]%list_elem_of_filter. congruence.
Qed.

(** ** ArtistCreditFilterElement *)

Section credit_filter.
Import ArtistCreditFilterElement.

Lemma build_index_loop (ids : list Z) (m : gmap Z Z) (id : Z) :
  is_Some (foldl (λ ac_index ac, <[ac := 1]> ac_index) m ids !! id)
  ↔ id ∈ ids ∨ is_Some (m !! id).
Proof.
  revert m. induction ids as [|ac ids IH]; intros m; simpl.
  - rewrite elem_of_nil. tauto.
  - rewrite IH, elem_of_cons, lookup_insert_is_Some.
    destruct (decide (ac = id)) as [->|Hne]; [intuition|].
    assert (id ≠ ac) by congruence. intuition.
Qed.

Lemma build_index_spec (ids : list Z) (id : Z) :
  is_Some (build_index ids !! id) ↔ id ∈ ids.
Proof.
  unfold build_index. rewrite build_index_loop, lookup_empty.
  split; [intros [?|[? [=]]]; done|by left].
Qed.

Lemma credit_step self results log r :
  step self (build_index (artist_credit_ids self)) (results, log) r
  = (if decide (credit_kept self r) then results ++ [r] else results,
     if decide (credit_skipped r) then log ++ [skip_message r] else log).
Proof.
  destruct (decide (credit_kept self r)) as [(id & Hid & Hnz & Hp)|Hn];
    destruct (decide (credit_skipped r)) as [Hs|Hs];
    unfold step, credit_skipped, credit in *.
  - destruct Hs; congruence.
  - destruct (artist r) as [a|]; [simpl in *|done]. rewrite Hid. simpl.
    destruct (Z.eqb_spec id 0) as [|_]; [done|]. simpl.
    destruct Hp as [[-> Hin]|[-> Hin]].
    + by rewrite bool_decide_eq_true_2 by (by apply build_index_spec).
    + by rewrite bool_decide_eq_false_2 by (by rewrite build_index_spec).
  - destruct (artist r) as [a|]; [simpl in *|done].
    destruct Hs as [->| ->]; done.
  - destruct (artist r) as [a|] eqn:Ha; [simpl in *|by destruct Hs; left].
    destruct (artist_credit_id a) as [id|] eqn:Hid; [|by destruct Hs; left].
    simpl. destruct (Z.eqb_spec id 0) as [->|Hnz]; [by destruct Hs; right|].
    simpl.
    assert (¬ credit_passes self id) as Hp.
    { intros Hp. apply Hn. exists id. unfold credit. rewrite Ha. simpl. by rewrite Hid. }
    unfold credit_passes in Hp. destruct (include self).
    + rewrite bool_decide_eq_false_2; [done|].
      rewrite build_index_spec. intros Hin. apply Hp. by left.
    + rewrite bool_decide_eq_true_2; [done|].
      rewrite build_index_spec.
      destruct (decide (id ∈ artist_credit_ids self)) as [|Hin]; [done|].
      destruct Hp. by right.
Qed.

Lemma credit_loop self l results log :
  foldl (step self (build_index (artist_credit_ids self))) (results, log) l
  = (results ++ filter (credit_kept self) l,
     log ++ (skip_message <$> filter credit_skipped l)).
Proof.
  revert results log.
  induction l as [|r l IH]; intros results log; cbn [foldl].
  - by rewrite !app_nil_r.
  - rewrite credit_step, IH, !filter_cons.
    destruct (decide (credit_kept self r)), (decide (credit_skipped r));
      simpl; by rewrite <- ?app_assoc.
Qed.

Lemma credit_read self recordings :
  read self [recordings]
  = (Ok (filter (credit_kept self) recordings),
     skip_message <$> filter credit_skipped recordings).
Proof. unfold read. simpl. by rewrite credit_loop. Qed.

End credit_filter.

(** C5 (as stated): the specification's inclusion/exclusion rule fails for a
    recording whose credit id is 0 under an excluding filter with no
    configured id: the rule keeps the recording, the filter skips it. *)
Lemma credit_filter_as_stated_fails : ¬ credit_filter_as_stated.
Proof.
  intros H.
  pose (r := sample_credit "z" (Some (mkArtist (Some 0) None))).
  destruct (H (ArtistCreditFilterElement.init []) [r]) as (out & log & Hread & _ & Hall).
  rewrite credit_read in Hread. injection Hread as <- _.
  destruct (Hall r) as [_ Hkeep]; [constructor|].
  assert (r ∈ filter (credit_kept (ArtistCreditFilterElement.init [])) [r]) as Hin.
  { apply (Hkeep 0); [done|]. right. split; [done|]. apply not_elem_of_nil. }
  apply list_elem_of_filter in Hin as [(id & [= <-] & Hnz & _) _]. done.
Qed.

(** C5 (amended): the inclusion/exclusion filter returns a subsequence of
    its input and emits one diagnostic per skipped recording, in input
    order; a recording is skipped when its artist is absent or its credit id
    is absent or zero; every other recording is in the output exactly when
    [include] is true and its credit id is configured, or [include] is false
    and its credit id is not configured. *)
Theorem credit_filter_spec (self : ArtistCreditFilterElement.t)
    (recordings : list Recording) :
  ∃ out log, ArtistCreditFilterElement.read self [recordings] = (Ok out, log) ∧
    (out `sublist_of` recordings) ∧
    log = skip_message <$> filter credit_skipped recordings ∧
    ∀ r, r ∈ recordings →
      (credit r = None ∨ credit r = Some 0 → r ∉ out) ∧
      (∀ id, credit r = Some id → id ≠ 0 →
         (r ∈ out ↔
          (ArtistCreditFilterElement.include self = true
           ∧ id ∈ ArtistCreditFilterElement.artist_credit_ids self)
          ∨ (ArtistCreditFilterElement.include self = false
             ∧ id ∉ ArtistCreditFilterElement.artist_credit_ids self))).
Proof.
  do 2 eexists. split; [apply credit_read|].
  split; [apply sublist_filter|]. split; [done|].
  intros r Hin. split.
  - intros Hs [(id & Hid & Hnz & _) _]%list_elem_of_filter.
    destruct Hs; congruence.
  - intros id Hid Hnz. rewrite list_elem_of_filter.
    fold (credit_passes self id). unfold credit_kept. split.
    + intros [(id' & Hid' & _ & Hp) _]. congruence.
    + intros Hp. split; [|done]. by exists id.
Qed.

Lemma credit_filter_spec_witness :
  ∃ out log,
    ArtistCreditFilterElement.read (ArtistCreditFilterElement.mk [7] true)
      [[sample_credit "a" (Some (ac 7)); sample_credit "b" None;
        sample_credit "c" (Some (ac 8))]] = (Ok out, log) ∧
    sample_credit "a" (Some (ac 7)) ∈ out ∧
    (sample_credit "b" None ∉ out) ∧
    (sample_credit "c" (Some (ac 8)) ∉ out) ∧
    log = ["recording b has not artist credit id"%string].
Proof.
  destruct (credit_filter_spec (ArtistCreditFilterElement.mk [7] true)
      [sample_credit "a" (Some (ac 7)); sample_credit "b" None;
       sample_credit "c" (Some (ac 8))])
    as (out & log & Hread & _ & Hlog & Hall).
  exists out, log. split; [exact Hread|]. split; [|split; [|split]].
  - destruct (Hall (sample_credit "a" (Some (ac 7)))) as [_ Hk]; [by constructor|].
    apply (Hk 7); [done|done|]. left. split; [done|]. constructor.
  - destruct (Hall (sample_credit "b" None)) as [Hk _]; [by do 2 constructor|].
    apply Hk. by left.
  - destruct (Hall (sample_credit "c" (Some (ac 8)))) as [_ Hk];
      [by do 3 constructor|].
    intros Hin. apply (Hk 8) in Hin as [[_ Hin]|[[=] _]]; [|done|done].
    apply list_elem_of_singleton in Hin. done.
  - exact Hlog.
Defined.

(** ** ConsecutiveRecordingFilterElement *)

Section consecutive_filter.
Import ConsecutiveRecordingFilterElement.

Lemma consecutive_loop l output last_mbid :
  (foldl step (output, last_mbid) l).1
  = output ++ (filter changes (zip (last_mbid :: (Some ∘ mbid <$> l)) l)).*2.
Proof.
  revert output last_mbid.
  induction l as [|rec l IH]; intros output last_mbid; cbn [foldl].
  - simpl. by rewrite app_nil_r.
  - unfold step at 2. rewrite IH. cbn [fmap list_fmap zip zip_with].
    rewrite filter_cons. unfold changes at 2. simpl.
    destruct (decide (last_mbid ≠ Some (mbid rec))) as [Hne|Heq].
    + rewrite bool_decide_eq_true_2 by (intros Heq; by apply Hne).
      by rewrite <- app_assoc.
    + rewrite bool_decide_eq_false_2; [done|].
      intros Hne. apply Heq. intros Heq'. by apply Hne.
Qed.

Lemma consecutive_read recordings debug :
  read [recordings] debug
  = Ok (filter changes (with_previous recordings)).*2.
Proof. unfold read. simpl. f_equal. apply consecutive_loop. Qed.

(** The loop state after an element of mbid [m] absorbs a run of elements
    of the same mbid. *)
Lemma consecutive_run_absorbed run output m :
  Forall (λ x, mbid x = m) run →
  foldl step (output, Some m) run = (output, Some m).
Proof.
  induction 1 as [|x run Hx _ IH]; cbn [foldl]; [done|].
  unfold step at 2. rewrite Hx.
  by rewrite bool_decide_eq_false_2 by (intros Hne; by apply Hne).
Qed.

Lemma consecutive_run_collapses l1 r run l2 debug :
  Forall (λ x, mbid x = mbid r) run →
  read [l1 ++ r :: run ++ l2] debug = read [l1 ++ r :: l2] debug.
Proof.
  intros Hrun. unfold read. simpl. do 2 f_equal.
  rewrite !foldl_app. cbn [foldl]. rewrite foldl_app.
  destruct (foldl step ([], None) l1) as [output last_mbid].
  assert (∃ o, step (output, last_mbid) r = (o, Some (mbid r))) as [o ->]
    by (by eexists).
  by rewrite consecutive_run_absorbed.
Qed.

End consecutive_filter.

(** C7: the consecutive filter keeps an input element exactly when its mbid
    differs from the mbid of the input element just before it (the first
    element is always kept); a run of elements of one mbid is reduced to its
    first element; elements of equal mbid with an element of another mbid
    between them are both kept; and A, A, A, B, B, A, C gives A, B, A, C. *)
Theorem consecutive_filter_spec (debug : bool) :
  (∀ recordings,
     ConsecutiveRecordingFilterElement.read [recordings] debug
     = Ok (filter changes (with_previous recordings)).*2) ∧
  (∀ l1 r run l2,
     Forall (λ x, mbid x = mbid r) run →
     ConsecutiveRecordingFilterElement.read [l1 ++ r :: run ++ l2] debug
     = ConsecutiveRecordingFilterElement.read [l1 ++ r :: l2] debug) ∧
  (∀ a b a',
     mbid b ≠ mbid a → mbid a' = mbid a →
     ConsecutiveRecordingFilterElement.read [[a; b; a']] debug = Ok [a; b; a']) ∧
  (∀ A B C,
     mbid A ≠ mbid B → mbid A ≠ mbid C →
     ConsecutiveRecordingFilterElement.read [[A; A; A; B; B; A; C]] debug
     = Ok [A; B; A; C]).
Proof.
  split; [intros; apply consecutive_read|].
  split; [intros; by apply consecutive_run_collapses|].
  split.
  - intros a b a' Hba Ha'. unfold ConsecutiveRecordingFilterElement.read.
    simpl. repeat case_bool_decide; first [done|congruence].
  - intros A B C HAB HAC. unfold ConsecutiveRecordingFilterElement.read.
    simpl. repeat case_bool_decide; first [done|congruence].
Qed.

Lemma consecutive_filter_spec_witness :
  ConsecutiveRecordingFilterElement.read
    [[sample_id "A"; sample_id "A"; sample_id "A"; sample_id "B"; sample_id "B";
      sample_id "A"; sample_id "C"]] false
  = Ok [sample_id "A"; sample_id "B"; sample_id "A"; sample_id "C"].
Proof.
  apply (proj2 (proj2 (proj2 (consecutive_filter_spec false)))
           (sample_id "A") (sample_id "B") (sample_id "C")); done.
Defined.

(** ** DuplicateRecordingFilterElement *)

Section duplicate_filter.
Import DuplicateRecordingFilterElement.

Lemma duplicate_loop l output seen :
  (foldl step (output, seen) l).1 = output ++ first_occurrences seen l.
Proof.
  revert output seen.
  induction l as [|rec l IH]; intros output seen; cbn [foldl].
  - simpl. by rewrite app_nil_r.
  - unfold step at 2. simpl. destruct (decide (mbid rec ∈ seen)) as [Hin|Hout].
    + by rewrite bool_decide_eq_false_2 by (intros H; by apply H).
    + rewrite bool_decide_eq_true_2 by done.
      rewrite IH. by rewrite <- app_assoc.
Qed.

Lemma duplicate_read recordings debug :
  read [recordings] debug = Ok (first_occurrences ∅ recordings).
Proof. unfold read. simpl. f_equal. apply duplicate_loop. Qed.

Lemma unseen_after (m x : string) (seen : gset string) :
  m ≠ x → m ∉ seen → m ∉ ({[x]} ∪ seen : gset string).
Proof. intros Hne Hseen [?%elem_of_singleton|?]%elem_of_union; done. Qed.

Lemma first_occurrences_sublist seen l :
  first_occurrences seen l `sublist_of` l.
Proof.
  revert seen. induction l as [|r l IH]; intros seen; simpl; [done|].
  destruct (decide (mbid r ∈ seen)).
  - by apply sublist_cons.
  - by apply sublist_skip.
Qed.

Lemma first_occurrences_unseen seen l r :
  r ∈ first_occurrences seen l → mbid r ∉ seen.
Proof.
  revert seen. induction l as [|x l IH]; intros seen; simpl.
  - by intros ?%elem_of_nil.
  - destruct (decide (mbid x ∈ seen)); [by apply IH|].
    intros [->|Hin]%elem_of_cons; [done|].
    apply IH in Hin. set_solver.
Qed.

Lemma first_occurrences_NoDup seen l :
  NoDup (mbid <$> first_occurrences seen l).
Proof.
  revert seen. induction l as [|x l IH]; intros seen; simpl.
  - constructor.
  - destruct (decide (mbid x ∈ seen)); [by apply IH|].
    simpl. constructor; [|by apply IH].
    intros (r & Hr & Hin)%list_elem_of_fmap.
    apply first_occurrences_unseen in Hin. set_solver.
Qed.

(** A list without repeated mbid, none of them seen, passes unchanged. *)
Lemma first_occurrences_id seen l :
  NoDup (mbid <$> l) → (∀ r, r ∈ l → mbid r ∉ seen) →
  first_occurrences seen l = l.
Proof.
  revert seen. induction l as [|x l IH]; intros seen Hnd Hseen; simpl; [done|].
  apply NoDup_cons in Hnd as [Hx Hnd].
  rewrite decide_False by (apply Hseen; constructor).
  f_equal. apply IH; [done|].
  intros r Hr. specialize (Hseen r (list_elem_of_further _ _ _ Hr)).
  apply unseen_after; [|done].
  intros Heq. apply Hx. rewrite <- Heq. by apply list_elem_of_fmap_2.
Qed.

Lemma first_occurrences_covers seen l r :
  r ∈ l → mbid r ∉ seen → mbid r ∈ mbid <$> first_occurrences seen l.
Proof.
  revert seen. induction l as [|x l IH]; intros seen Hin Hseen; simpl.
  - by apply elem_of_nil in Hin.
  - apply elem_of_cons in Hin as [->|Hin].
    + rewrite decide_False by done. simpl. constructor.
    + destruct (decide (mbid x ∈ seen)); [by apply IH|].
      simpl. destruct (decide (mbid r = mbid x)) as [->|Hne]; [constructor|].
      apply list_elem_of_further, IH; [done|]. by apply unseen_after.
Qed.

(** A kept element is the first element of its mbid. *)
Lemma first_occurrences_first seen l r :
  r ∈ first_occurrences seen l →
  ∃ l1 l2, l = l1 ++ r :: l2 ∧ mbid r ∉ mbid <$> l1.
Proof.
  revert seen. induction l as [|x l IH]; intros seen; simpl.
  - by intros ?%elem_of_nil.
  - destruct (decide (mbid x ∈ seen)) as [Hx|Hx].
    + intros Hin. pose proof (first_occurrences_unseen _ _ _ Hin) as Hr.
      destruct (IH _ Hin) as (l1 & l2 & -> & Hl1).
      exists (x :: l1), l2. split; [done|]. simpl.
      intros [Heq|?]%elem_of_cons; [|done]. congruence.
    + intros [->|Hin]%elem_of_cons.
      * exists [], l. split; [done|]. simpl. apply not_elem_of_nil.
      * pose proof (first_occurrences_unseen _ _ _ Hin) as Hr.
        destruct (IH _ Hin) as (l1 & l2 & -> & Hl1).
        exists (x :: l1), l2. split; [done|]. simpl.
        intros [Heq|?]%elem_of_cons; [|done]. set_solver.
Qed.

End duplicate_filter.

(** C8: the duplicate filter is idempotent: its output, filtered again, is
    returned unchanged.  The output is a subsequence of the input without
    repeated mbid, has every mbid of the input, and each of its elements is
    the first input element of its mbid. *)
Theorem duplicate_filter_idempotent (recordings : list Recording) (debug : bool) :
  ∃ out, DuplicateRecordingFilterElement.read [recordings] debug = Ok out ∧
    DuplicateRecordingFilterElement.read [out] debug = Ok out ∧
    (out `sublist_of` recordings) ∧
    NoDup (mbid <$> out) ∧
    (∀ r, r ∈ recordings → mbid r ∈ mbid <$> out) ∧
    (∀ r, r ∈ out →
       ∃ l1 l2, recordings = l1 ++ r :: l2 ∧ mbid r ∉ mbid <$> l1).
Proof.
  exists (first_occurrences ∅ recordings).
  split; [apply duplicate_read|]. split; [|split; [|split; [|split]]].
  - rewrite duplicate_read. f_equal.
    apply first_occurrences_id; [apply first_occurrences_NoDup|].
    intros r _. apply not_elem_of_empty.
  - apply first_occurrences_sublist.
  - apply first_occurrences_NoDup.
  - intros r Hin. apply first_occurrences_covers; [done|].
    apply not_elem_of_empty.
  - intros r. apply first_occurrences_first.
Qed.

Lemma duplicate_filter_idempotent_witness :
  ∃ out,
    DuplicateRecordingFilterElement.read
      [[sample_id "A"; sample_id "B"; sample_id "A"; sample_id "C"; sample_id "B"]]
      false = Ok out ∧
    DuplicateRecordingFilterElement.read [out] false = Ok out.
Proof.
  destruct (duplicate_filter_idempotent
    [sample_id "A"; sample_id "B"; sample_id "A"; sample_id "C"; sample_id "B"]
    false) as (out & Hread & Hagain & _).
  exists out. split; [exact Hread|exact Hagain].
Defined.

Example duplicate_filter_example :
  DuplicateRecordingFilterElement.read
    [[sample_id "A"; sample_id "B"; sample_id "A"; sample_id "C"; sample_id "B"]]
    false
  = Ok [sample_id "A"; sample_id "B"; sample_id "C"].
Proof. by vm_compute. Qed.

(** ** ArtistCreditLimiterElement *)

Section limiter.
Import ArtistCreditLimiterElement.

(** *** The index *)

Lemma dd_get_append k key e (ac_index : index) :
  dd_get k (dd_append key e ac_index)
  = if decide (k = key) then dd_get k ac_index ++ [e] else dd_get k ac_index.
Proof.
  induction ac_index as [|[k' v] rest IH]; simpl.
  - destruct (decide (key = k)), (decide (k = key)); congruence.
  - destruct (decide (k' = key)) as [->|Hne]; simpl.
    + destruct (decide (key = k)) as [->|Hne].
      * by rewrite decide_True.
      * by rewrite decide_False by congruence.
    + destruct (decide (k' = k)) as [->|Hne'].
      * by rewrite decide_False by congruence.
      * apply IH.
Qed.

Lemma dd_append_keys key e (ac_index : index) :
  (dd_append key e ac_index).*1
  = if decide (key ∈ ac_index.*1) then ac_index.*1 else ac_index.*1 ++ [key].
Proof.
  induction ac_index as [|[k v] rest IH]; cbn [dd_append].
  - destruct (decide (key ∈ ([] : index).*1)) as [?%elem_of_nil|]; done.
  - destruct (decide (k = key)) as [->|Hne].
    + destruct (decide (key ∈ ((key, v) :: rest).*1)) as [|Hout]; [done|].
      destruct Hout. constructor.
    + rewrite fmap_cons, IH.
      destruct (decide (key ∈ rest.*1)) as [Hin|Hout],
               (decide (key ∈ ((k, v) :: rest).*1)) as [Hin'|Hout'];
        try done.
      * destruct Hout'. by constructor.
      * rewrite fmap_cons in Hin'.
        apply elem_of_cons in Hin' as [Heq|?]; [|done].
        simpl in Heq. congruence.
Qed.

Lemma dd_append_NoDup key e (ac_index : index) :
  NoDup ac_index.*1 → NoDup (dd_append key e ac_index).*1.
Proof.
  intros Hnd. rewrite dd_append_keys.
  destruct (decide (key ∈ ac_index.*1)); [done|].
  apply NoDup_app. split; [done|]. split; [|apply NoDup_singleton].
  intros k Hk ->%list_elem_of_singleton. done.
Qed.

Lemma dd_get_elem_of k v (ac_index : index) :
  NoDup ac_index.*1 → (k, v) ∈ ac_index → dd_get k ac_index = v.
Proof.
  induction ac_index as [|[k' v'] rest IH]; simpl.
  - by intros _ ?%elem_of_nil.
  - intros [Hk' Hnd]%NoDup_cons [[= <- <-]|Hin]%elem_of_cons.
    + by rewrite decide_True.
    + rewrite decide_False; [by apply IH|].
      intros ->. apply Hk'. by apply (list_elem_of_fmap_2 fst _ (k, v)).
Qed.

(** *** The first loop *)

Lemma group_of_cons k r l :
  group_of k (r :: l)
  = if decide (credit r = k) then entry_of r :: group_of k l else group_of k l.
Proof.
  unfold group_of. rewrite filter_cons. by destruct (decide (credit r = k)).
Qed.

Lemma group_step_artist (ac_index : index) (b : bool) r a :
  artist r = Some a →
  group_step (ac_index, b) r
  = Ok (dd_append (artist_credit_id a) (mbid r, ranking r) ac_index,
        if is_None (ranking r) then false else b).
Proof. intros Ha. unfold group_step. by rewrite Ha. Qed.

Lemma group_loop l (ac_index : index) (b : bool) :
  Forall (λ r, is_Some (artist r)) l →
  ∃ ac_index',
    for_each group_step l (ac_index, b)
    = Ok (ac_index', b && bool_decide (all_ranked l)) ∧
    (∀ k, dd_get k ac_index' = dd_get k ac_index ++ group_of k l) ∧
    (NoDup ac_index.*1 → NoDup ac_index'.*1) ∧
    (∀ k, k ∈ ac_index'.*1 ↔ k ∈ ac_index.*1 ∨ ∃ r, r ∈ l ∧ credit r = k).
Proof.
  intros Hl. revert ac_index b.
  induction Hl as [|r l [a Ha] _ IH]; intros ac_index b.
  - exists ac_index. cbn [for_each]. split; [|split; [|split]].
    + rewrite bool_decide_eq_true_2 by constructor. by rewrite andb_true_r.
    + intros k. by rewrite app_nil_r.
    + done.
    + intros k. split; [by left|]. intros [?|(r & ?%elem_of_nil & _)]; done.
  - cbn [for_each]. rewrite (group_step_artist _ _ _ _ Ha).
    cbn [mbind result_bind].
    destruct (IH (dd_append (artist_credit_id a) (mbid r, ranking r) ac_index)
                 (if is_None (ranking r) then false else b))
      as (ac_index' & Hloop & Hget & Hnd & Hkeys).
    assert (credit r = artist_credit_id a) as Hcredit
      by (unfold credit; by rewrite Ha).
    exists ac_index'. split; [|split; [|split]].
    + rewrite Hloop. do 2 f_equal.
      destruct (ranking r) as [x|] eqn:Hx; simpl.
      * f_equal. apply bool_decide_ext. unfold all_ranked.
        rewrite Forall_cons, Hx. split; [by split|by intros [_ ?]].
      * symmetry. apply andb_false_iff. right.
        apply bool_decide_eq_false. intros [[? Hs] _]%Forall_cons. congruence.
    + intros k. rewrite Hget, dd_get_append, group_of_cons, Hcredit.
      destruct (decide (k = artist_credit_id a)) as [->|Hne].
      * rewrite decide_True by done. by rewrite <- app_assoc.
      * by rewrite decide_False by congruence.
    + intros ?. by apply Hnd, dd_append_NoDup.
    + intros k. rewrite Hkeys, dd_append_keys. split.
      * intros [Hk|(r' & Hr' & Hk)].
        -- destruct (decide (artist_credit_id a ∈ ac_index.*1)); [by left|].
           apply elem_of_app in Hk as [?| ->%list_elem_of_singleton]; [by left|].
           right. exists r. split; [constructor|done].
        -- right. exists r'. split; [by constructor|done].
      * intros [Hk|(r' & [->|Hr']%elem_of_cons & Hk)].
        -- left. destruct (decide (artist_credit_id a ∈ ac_index.*1)); [done|].
           apply elem_of_app. by left.
        -- left. rewrite <- Hk, Hcredit.
           destruct (decide (artist_credit_id a ∈ ac_index.*1)); [done|].
           apply elem_of_app. right. constructor.
        -- right. by exists r'.
Qed.

(** *** Sorting and shuffling *)

Lemma insert_by_perm reverse e l : insert_by reverse e l ≡ₚ e :: l.
Proof.
  induction l as [|y l IH]; simpl; [done|].
  destruct (if reverse then key_ltb e.2 y.2 else key_ltb y.2 e.2); [|done].
  by rewrite IH, Permutation_swap.
Qed.

Lemma stable_sort_perm reverse l : stable_sort reverse l ≡ₚ l.
Proof.
  induction l as [|e l IH]; simpl; [done|].
  fold (stable_sort reverse l). by rewrite insert_by_perm, IH.
Qed.

Lemma sorted_ranked reverse l :
  Forall (λ e, is_Some e.2) l → sorted reverse l = Ok (stable_sort reverse l).
Proof.
  intros Hl. unfold sorted.
  replace (existsb (λ e, is_None e.2) l) with false; [by rewrite andb_false_r|].
  symmetry. induction Hl as [|e l [x Hx] _ IH]; simpl; [done|].
  by rewrite Hx.
Qed.

Lemma insert_by_sorted reverse e l :
  is_Some e.2 → Forall (λ e, is_Some e.2) l →
  StronglySorted (ranking_order reverse) l →
  StronglySorted (ranking_order reverse) (insert_by reverse e l).
Proof.
  intros [x Hx] Hl Hs. induction Hs as [|y l Hs IH Hy]; simpl.
  - repeat constructor.
  - apply Forall_cons in Hl as [[z Hz] Hl]. rewrite Hx, Hz. simpl.
    assert (∀ e', e' ∈ insert_by reverse e l → e' = e ∨ e' ∈ l) as Hin.
    { intros e'. rewrite insert_by_perm. by intros ?%elem_of_cons. }
    destruct reverse.
    + destruct (Z.ltb_spec x z).
      * constructor; [by apply IH|]. apply Forall_forall. intros e' He'.
        destruct (Hin e' He') as [->|He].
        -- unfold ranking_order. rewrite Hx, Hz. lia.
        -- by apply (proj1 (Forall_forall _ _) Hy).
      * constructor; [by constructor|]. constructor.
        -- unfold ranking_order. rewrite Hx, Hz. lia.
        -- apply Forall_forall. intros e' He'.
           pose proof (proj1 (Forall_forall _ _) Hy e' He') as Hle.
           unfold ranking_order in *. rewrite Hx. rewrite Hz in Hle.
           destruct (e'.2); [lia|done].
    + destruct (Z.ltb_spec z x).
      * constructor; [by apply IH|]. apply Forall_forall. intros e' He'.
        destruct (Hin e' He') as [->|He].
        -- unfold ranking_order. rewrite Hx, Hz. lia.
        -- by apply (proj1 (Forall_forall _ _) Hy).
      * constructor; [by constructor|]. constructor.
        -- unfold ranking_order. rewrite Hx, Hz. lia.
        -- apply Forall_forall. intros e' He'.
           pose proof (proj1 (Forall_forall _ _) Hy e' He') as Hle.
           unfold ranking_order in *. rewrite Hx. rewrite Hz in Hle.
           destruct (e'.2); [lia|done].
Qed.

Lemma stable_sort_sorted reverse l :
  Forall (λ e, is_Some e.2) l →
  StronglySorted (ranking_order reverse) (stable_sort reverse l).
Proof.
  induction 1 as [|e l He Hl IH]; simpl; [constructor|].
  fold (stable_sort reverse l). apply insert_by_sorted; [done| |done].
  by rewrite stable_sort_perm.
Qed.

Lemma swap_perm {A} (i j : nat) (x : list A) : swap i j x ≡ₚ x.
Proof.
  unfold swap. destruct (x !! i) as [xi|] eqn:Hi; [|done].
  destruct (x !! j) as [xj|] eqn:Hj; [|done].
  by apply Permutation_insert_swap.
Qed.

Lemma shuffle_perm {A} (x : list A) tape : (shuffle x tape).1 ≡ₚ x.
Proof.
  unfold shuffle. generalize (rev (seq 1 (length x - 1))). intros steps.
  change x with ((x, tape).1) at 2. generalize (x, tape). clear x tape.
  induction steps as [|i steps IH]; intros st; cbn [foldl]; [done|].
  rewrite IH. destruct (randbelow (i + 1) st.2) as [j tape'].
  apply swap_perm.
Qed.

(** *** Slices *)

Lemma slice_to_sublist {A} n (l : list A) : slice_to n l `sublist_of` l.
Proof. unfold slice_to. destruct (0 <=? n); apply sublist_take. Qed.

Lemma slice_to_length {A} n (l : list A) :
  0 ≤ n → (Z.of_nat (length (slice_to n l)) ≤ n).
Proof.
  intros Hn. unfold slice_to. destruct (Z.leb_spec 0 n); [|lia].
  rewrite length_take. lia.
Qed.

Lemma slice_to_all {A} n (l : list A) :
  Z.of_nat (length l) ≤ n → slice_to n l = l.
Proof.
  intros Hn. unfold slice_to. destruct (Z.leb_spec 0 n); [|lia].
  apply take_ge. lia.
Qed.

(** *** The second loop *)

Lemma limit_step_ok self (ranked : bool) (done_ : index) tape kv :
  (ranked = true → Forall (λ e, is_Some e.2) kv.2) →
  ∃ kv' tape',
    limit_step self ranked (done_, tape) kv = Ok (done_ ++ [kv'], tape') ∧
    limited_from self ranked kv kv'.
Proof.
  intros Hkv. unfold limit_step. destruct ranked.
  - rewrite sorted_ranked by auto. cbn [mbind result_bind fst snd].
    eexists (_, _), _. split; [done|]. split; [done|].
    exists (stable_sort (exclude_lower_ranked self) kv.2).
    split; [apply stable_sort_perm|done].
  - cbn [mbind result_bind fst snd].
    eexists (_, _), _. split; [done|]. split; [done|].
    exists (shuffle kv.2 tape).1.
    split; [apply shuffle_perm|]. split; [done|]. intros [=].
Qed.

Lemma limit_loop self (ranked : bool) (ac_index done_ : index) tape :
  (ranked = true → Forall (λ kv, Forall (λ e, is_Some e.2) kv.2) ac_index) →
  ∃ limited tape',
    for_each (limit_step self ranked) ac_index (done_, tape)
    = Ok (done_ ++ limited, tape') ∧
    Forall2 (limited_from self ranked) ac_index limited.
Proof.
  revert done_ tape.
  induction ac_index as [|kv ac_index IH]; intros done_ tape Hall.
  - exists [], tape. cbn [for_each]. by rewrite app_nil_r.
  - destruct (limit_step_ok self ranked done_ tape kv)
      as (kv' & tape1 & Hstep & Hkv).
    { intros Hr. by apply Forall_cons in Hall as [? _]. }
    destruct (IH (done_ ++ [kv']) tape1) as (limited & tape2 & Hloop & Hlim).
    { intros Hr. by apply Forall_cons in Hall as [_ ?]. }
    exists (kv' :: limited), tape2. cbn [for_each]. rewrite Hstep.
    cbn [mbind result_bind]. split; [|by constructor].
    etrans; [exact Hloop|]. by rewrite <- app_assoc.
Qed.

(** *** The third and fourth loops *)

Lemma pass_recs_of_loop (ac_index : index) (pass_recs : list string) :
  foldl (λ pass_recs kv,
           foldl (λ pass_recs (e : entry), pass_recs ++ [e.1]) pass_recs kv.2)
        pass_recs ac_index
  = pass_recs ++ survivors ac_index.
Proof.
  revert pass_recs.
  induction ac_index as [|[k v] rest IH]; intros pass_recs; cbn [foldl].
  - unfold survivors. simpl. by rewrite app_nil_r.
  - rewrite IH. unfold survivors. cbn [mbind list_bind snd].
    rewrite app_assoc. f_equal. clear IH.
    revert pass_recs. induction v as [|e v IHv]; intros pass_recs; simpl.
    + by rewrite app_nil_r.
    + rewrite IHv. by rewrite <- app_assoc.
Qed.

Lemma pass_recs_of_survivors (ac_index : index) :
  pass_recs_of ac_index = survivors ac_index.
Proof. unfold pass_recs_of. by rewrite pass_recs_of_loop. Qed.

Lemma select_filter pass_recs recordings :
  select pass_recs recordings = filter (λ r, mbid r ∈ pass_recs) recordings.
Proof.
  unfold select.
  rewrite (foldl_append_filter (λ r, mbid r ∈ pass_recs)); [done|].
  intros acc r. unfold bool_decide. by destruct (decide_rel _ _ _).
Qed.

(** *** The whole transform *)

Lemma Forall2_keys self ranked (ac_index limited : index) :
  Forall2 (limited_from self ranked) ac_index limited →
  limited.*1 = ac_index.*1.
Proof.
  induction 1 as [|kv kv' ? ? [Hk _] _ IH]; [done|].
  rewrite !fmap_cons. by f_equal.
Qed.

Lemma limiter_read self recordings tape :
  Forall (λ r, is_Some (artist r)) recordings →
  ∃ limited : index,
    read self [recordings] tape
    = Ok (filter (λ r, mbid r ∈ survivors limited) recordings) ∧
    NoDup limited.*1 ∧
    (∀ k, k ∈ limited.*1 ↔ ∃ r, r ∈ recordings ∧ credit r = k) ∧
    Forall (λ kv, limited_from self (bool_decide (all_ranked recordings))
                    (kv.1, group_of kv.1 recordings) kv) limited.
Proof.
  intros Hart. unfold read. cbn [inputs_0 mbind result_bind].
  destruct (group_loop recordings [] true Hart)
    as (ac_index & Hgroup & Hget & Hnd & Hkeys).
  specialize (Hnd (NoDup_nil_2)). rewrite Hgroup.
  cbn [mbind result_bind fst snd andb].
  assert (∀ k v, (k, v) ∈ ac_index → v = group_of k recordings) as Hgroups.
  { intros k v Hkv. rewrite <- (dd_get_elem_of k v ac_index) by done.
    by rewrite Hget. }
  destruct (limit_loop self (bool_decide (all_ranked recordings)) ac_index [] tape)
    as (limited & tape' & Hlimit & Hlim).
  { intros Hr%bool_decide_eq_true. apply Forall_forall. intros [k v] Hkv.
    rewrite (Hgroups k v Hkv). unfold group_of.
    apply Forall_fmap, Forall_forall.
    intros r [_ Hr']%list_elem_of_filter. simpl.
    by apply (proj1 (Forall_forall _ _) Hr). }
  rewrite Hlimit. cbn [mbind result_bind fst app].
  rewrite pass_recs_of_survivors, select_filter.
  pose proof (Forall2_keys _ _ _ _ Hlim) as Hsame.
  exists limited. split; [done|]. split; [by rewrite Hsame|]. split.
  - intros k. rewrite Hsame, Hkeys. split.
    + by intros [?%elem_of_nil|?].
    + by right.
  - apply Forall_forall. intros kv' Hkv'.
    apply list_elem_of_lookup in Hkv' as [i Hi].
    destruct (Forall2_lookup_r _ _ _ _ _ Hlim Hi) as ([k v] & Hkv & Hfrom).
    apply list_elem_of_lookup_2 in Hkv.
    destruct Hfrom as [Hk Hfrom]. simpl in Hk. rewrite Hk.
    rewrite <- (Hgroups k v Hkv). by split.
Qed.

(** The transform fails exactly when some recording has no artist, and
    then with the [AttributeError] of [rec.artist.artist_credit_id]. *)
Lemma group_loop_raises l (st : index * bool) :
  Exists (λ r, artist r = None) l →
  for_each group_step l st = Raise AttributeError.
Proof.
  intros Hl. revert st. induction l as [|r l IH]; intros [ac_index b].
  - by apply Exists_nil in Hl.
  - cbn [for_each]. destruct (artist r) as [a|] eqn:Ha.
    + rewrite (group_step_artist _ _ _ _ Ha). cbn [mbind result_bind].
      apply IH. apply Exists_cons in Hl as [?|?]; [congruence|done].
    + unfold group_step. by rewrite Ha.
Qed.

Lemma limiter_read_raises self recordings tape :
  Exists (λ r, artist r = None) recordings →
  read self [recordings] tape = Raise AttributeError.
Proof.
  intros Hl. unfold read. cbn [inputs_0 mbind result_bind].
  by rewrite group_loop_raises.
Qed.

Lemma attributable_artist l :
  Forall attributable l → Forall (λ r, is_Some (artist r)) l.
Proof.
  intros Hl. eapply Forall_impl; [exact Hl|].
  intros r [id Hid]. unfold credit in Hid.
  destruct (artist r); [by eexists|done].
Qed.

(** *** Consequences for the groups *)

Lemma NoDup_fmap_eq {A B} (f : A → B) (l : list A) x y :
  NoDup (f <$> l) → x ∈ l → y ∈ l → f x = f y → x = y.
Proof.
  induction l as [|z l IH]; simpl; [by intros _ ?%elem_of_nil|].
  intros [Hz Hnd]%NoDup_cons [->|Hx]%elem_of_cons [->|Hy]%elem_of_cons Hf.
  - done.
  - destruct Hz. rewrite Hf. by apply list_elem_of_fmap_2.
  - destruct Hz. rewrite <- Hf. by apply list_elem_of_fmap_2.
  - by apply IH.
Qed.

(** An mbid that survives comes from a recording of the key it is stored
    under. *)
Lemma survivor_origin self ranked k v m recordings :
  limited_from self ranked (k, group_of k recordings) (k, v) →
  m ∈ v.*1 → ∃ r, r ∈ recordings ∧ credit r = k ∧ mbid r = m.
Proof.
  intros [_ (ordered & Hperm & Hv & _)] Hm. simpl in *.
  apply list_elem_of_fmap in Hm as ([m' rk] & -> & He).
  rewrite Hv in He.
  pose proof (elem_of_sublist _ _ _ He (slice_to_sublist _ _)) as He'.
  rewrite Hperm in He'. unfold group_of in He'.
  apply list_elem_of_fmap in He' as (r & Hr & [Hk Hin]%list_elem_of_filter).
  exists r. split; [done|]. split; [done|]. by injection Hr.
Qed.

Lemma limited_group self ranked (limited : index) recordings kv :
  Forall (λ kv, limited_from self ranked (kv.1, group_of kv.1 recordings) kv)
         limited →
  kv ∈ limited →
  limited_from self ranked (kv.1, group_of kv.1 recordings) (kv.1, kv.2).
Proof.
  intros Hall Hkv. pose proof (proj1 (Forall_forall _ _) Hall kv Hkv) as H.
  by destruct kv.
Qed.

Lemma survivors_elem_of (limited : index) m :
  m ∈ survivors limited ↔ ∃ kv, kv ∈ limited ∧ m ∈ kv.2.*1.
Proof.
  unfold survivors. rewrite list_elem_of_bind. split.
  - intros (kv & ? & ?). by exists kv.
  - intros (kv & ? & ?). by exists kv.
Qed.

Lemma lookup_key (limited : index) k :
  k ∈ limited.*1 → ∃ v, (k, v) ∈ limited.
Proof.
  intros ([k' v] & -> & Hin)%list_elem_of_fmap. by exists v.
Qed.

Lemma NoDup_keys_eq (limited : index) k v1 v2 :
  NoDup limited.*1 → (k, v1) ∈ limited → (k, v2) ∈ limited → v1 = v2.
Proof.
  intros Hnd H1 H2.
  rewrite <- (dd_get_elem_of k v1 limited), <- (dd_get_elem_of k v2 limited);
    done.
Qed.

(** *** A single group of ranked recordings *)

Lemma filter_mbid_cons (m : string) r l :
  filter (λ r, mbid r ∈ [m]) (r :: l)
  = if decide (mbid r = m) then r :: filter (λ r, mbid r ∈ [m]) l
    else filter (λ r, mbid r ∈ [m]) l.
Proof. apply (filter_singleton_cons mbid). Qed.

Lemma singleton_keys {A} (l : list A) a :
  NoDup l → (∀ x, x ∈ l ↔ x = a) → l = [a].
Proof.
  intros Hnd Hl. destruct l as [|x [|y l]].
  - assert (a ∈ ([] : list A)) as ?%elem_of_nil by (by apply Hl). done.
  - f_equal. apply Hl. constructor.
  - assert (x = a) as -> by (apply Hl; constructor).
    assert (y = a) as -> by (apply Hl; do 2 constructor).
    apply NoDup_cons in Hnd as [Hx _]. destruct Hx. constructor.
Qed.

Lemma limiter_read_single_group self recordings tape id :
  recordings ≠ [] →
  all_ranked recordings →
  Forall (λ r, credit r = Some id) recordings →
  read self [recordings] tape
  = Ok (filter
          (λ r, mbid r ∈ (slice_to (count self)
                            (stable_sort (exclude_lower_ranked self)
                               (entry_of <$> recordings))).*1)
          recordings).
Proof.
  intros Hne Hranked Hcredit.
  assert (Forall attributable recordings) as Hattr.
  { eapply Forall_impl; [exact Hcredit|]. intros r Hr. by exists id. }
  destruct (limiter_read self recordings tape (attributable_artist _ Hattr))
    as (limited & Hread & Hnd & Hkeys & Hlim).
  assert (limited.*1 = [Some id]) as Hone.
  { apply singleton_keys; [done|]. intros k. rewrite Hkeys. split.
    - intros (r & Hr & <-). by apply (proj1 (Forall_forall _ _) Hcredit).
    - intros ->. destruct recordings as [|r l]; [done|].
      exists r. split; [constructor|]. by apply Forall_cons in Hcredit as [? _]. }
  destruct limited as [|[k v] [|? ?]]; try done.
  injection Hone as ->.
  apply Forall_cons in Hlim as [[_ (ordered & _ & Hcut & Hsort)] _].
  simpl in Hcut, Hsort.
  rewrite Hsort in Hcut by (by apply bool_decide_eq_true).
  assert (group_of (Some id) recordings = entry_of <$> recordings) as Hgroup.
  { unfold group_of. f_equal. apply filter_all.
    intros r Hr. by apply (proj1 (Forall_forall _ _) Hcredit). }
  rewrite Hgroup in Hcut. rewrite Hread. unfold survivors.
  cbn [mbind list_bind snd]. by rewrite app_nil_r, Hcut.
Qed.

End limiter.

(** C1: the limiter does not report a recording that cannot be attributed
    with a [PipelineError].  Its transform either returns a sequence (when
    every recording has an artist) or raises the [AttributeError] of the
    attribute access (when some recording has none); a recording whose
    artist has no credit id is grouped under the key [None] and returned. *)
Theorem limiter_missing_credit_outcome
    (self : ArtistCreditLimiterElement.t) (recordings : list Recording)
    (tape : list nat) :
  ((Forall (λ r, is_Some (artist r)) recordings ∧
    ∃ out, ArtistCreditLimiterElement.read self [recordings] tape = Ok out)
   ∨ (Exists (λ r, artist r = None) recordings ∧
      ArtistCreditLimiterElement.read self [recordings] tape
      = Raise AttributeError)) ∧
  ArtistCreditLimiterElement.read ArtistCreditLimiterElement.init
    [[sample_credit "x" (Some (mkArtist None None))]] tape
  = Ok [sample_credit "x" (Some (mkArtist None None))] ∧
  ArtistCreditLimiterElement.read ArtistCreditLimiterElement.init
    [[sample_credit "y" None]] tape
  = Raise AttributeError.
Proof.
  split; [|split; [done|done]].
  destruct (decide (Forall (λ r, is_Some (artist r)) recordings)) as [Hall|Hex].
  - left. split; [done|].
    destruct (limiter_read self recordings tape Hall) as (limited & Hread & _).
    by eexists.
  - right. apply not_Forall_Exists in Hex; [|apply _].
    assert (Exists (λ r, artist r = None) recordings) as Hnone.
    { eapply Exists_impl; [exact Hex|]. intros r Hr. simpl in Hr.
      destruct (artist r); [|done]. destruct Hr. by eexists. }
    split; [done|]. by apply limiter_read_raises.
Qed.

(** C2 (as stated): the cap fails for two recordings of one mbid and one
    credit under count 1 (both are returned), and for two distinct
    recordings of one credit under count -1 (one is returned). *)
Lemma limiter_cap_as_stated_fails :
  ¬ limiter_cap_as_stated ∧
  ArtistCreditLimiterElement.read (ArtistCreditLimiterElement.mk 1 true)
    [[sample_ranked "a" 5 1; sample_ranked "a" 5 1]] []
  = Ok [sample_ranked "a" 5 1; sample_ranked "a" 5 1] ∧
  ArtistCreditLimiterElement.read (ArtistCreditLimiterElement.mk (-1) true)
    [[sample_ranked "a" 5 1; sample_ranked "b" 7 1]] []
  = Ok [sample_ranked "b" 7 1].
Proof.
  split; [|split; by vm_compute].
  intros H.
  destruct (H (ArtistCreditLimiterElement.mk 1 true)
              [sample_ranked "a" 5 1; sample_ranked "a" 5 1] [])
    as (out & Hread & Hcap).
  { repeat constructor; by eexists. }
  assert (out = [sample_ranked "a" 5 1; sample_ranked "a" 5 1]) as ->.
  { vm_compute in Hread. by injection Hread. }
  specialize (Hcap 1). unfold credit_count in Hcap. simpl in Hcap.
  assert (Some 1 ∈ [Some 1; Some 1]) as Hin by constructor.
  specialize (Hcap Hin). vm_compute in Hcap. by apply Hcap.
Qed.

(** C2 (amended): for a count of zero or more and an input whose recordings
    all have an artist with a credit id and pairwise distinct mbids, the
    limiter returns a sequence in which no credit id has more than [count]
    recordings, whatever the random draws. *)
Theorem limiter_cap (self : ArtistCreditLimiterElement.t)
    (recordings : list Recording) (tape : list nat) :
  0 ≤ ArtistCreditLimiterElement.count self →
  NoDup (mbid <$> recordings) →
  Forall attributable recordings →
  ∃ out, ArtistCreditLimiterElement.read self [recordings] tape = Ok out ∧
    ∀ id, credit_count id out ≤ ArtistCreditLimiterElement.count self.
Proof.
  intros Hcount Hnd Hattr.
  destruct (limiter_read self recordings tape (attributable_artist _ Hattr))
    as (limited & Hread & Hkeys_nd & Hkeys & Hlim).
  eexists. split; [exact Hread|]. intros id. unfold credit_count.
  set (out := filter (λ r, mbid r ∈ survivors limited) recordings).
  set (S := filter (λ r, credit r = Some id) out).
  assert (S `sublist_of` recordings) as Hsub.
  { etrans; apply sublist_filter. }
  destruct (decide (Some id ∈ limited.*1)) as [Hin|Hout].
  - apply lookup_key in Hin as [v Hv].
    pose proof (limited_group _ _ _ _ _ Hlim Hv) as Hfrom. simpl in Hfrom.
    assert (Z.of_nat (length v) ≤ ArtistCreditLimiterElement.count self) as Hlen.
    { destruct Hfrom as [_ (ordered & _ & Hcut & _)]. simpl in Hcut.
      rewrite Hcut. by apply slice_to_length. }
    assert (mbid <$> S ⊆+ v.*1) as Hincl.
    { apply NoDup_submseteq.
      - eapply sublist_NoDup; [exact Hnd|]. by apply fmap_sublist.
      - intros m (r & -> & Hr)%list_elem_of_fmap.
        apply list_elem_of_filter in Hr as [Hcr Hr].
        apply list_elem_of_filter in Hr as [Hsurv Hr].
        apply survivors_elem_of in Hsurv as ([k2 v2] & Hkv2 & Hm).
        pose proof (limited_group _ _ _ _ _ Hlim Hkv2) as Hfrom2.
        destruct (survivor_origin _ _ _ _ _ _ Hfrom2 Hm)
          as (r2 & Hr2 & Hk2 & Hmb).
        assert (r2 = r) as -> by (by apply (NoDup_fmap_eq mbid recordings)).
        simpl in Hk2, Hm. rewrite Hcr in Hk2. subst k2.
        by rewrite (NoDup_keys_eq limited (Some id) v v2). }
    apply submseteq_length in Hincl. rewrite !length_fmap in Hincl.
    apply Nat2Z.inj_le in Hincl.
    exact (Z.le_trans _ _ _ Hincl Hlen).
  - assert (S = []) as ->; [|simpl; lia].
    apply filter_none. intros r Hr Hcr.
    apply Hout, Hkeys. exists r. split; [|done].
    by apply list_elem_of_filter in Hr as [_ ?].
Qed.

Lemma limiter_cap_witness :
  ∃ out,
    ArtistCreditLimiterElement.read (ArtistCreditLimiterElement.mk 1 true)
      [[sample_ranked "a" 5 1; sample_ranked "b" 7 1; sample_ranked "c" 3 2]]
      [] = Ok out ∧
    ∀ id, credit_count id out ≤ 1.
Proof.
  apply (limiter_cap (ArtistCreditLimiterElement.mk 1 true)
    [sample_ranked "a" 5 1; sample_ranked "b" 7 1; sample_ranked "c" 3 2] []).
  - simpl. lia.
  - apply (bool_decide_unpack _). vm_compute. exact I.
  - repeat constructor; by eexists.
Defined.

(** C4 (as stated): a negative count does not empty the output: under
    count -1 two recordings of one credit leave one of them. *)
Lemma limiter_edges_as_stated_fails :
  ¬ limiter_edges_as_stated ∧
  ArtistCreditLimiterElement.read (ArtistCreditLimiterElement.mk (-1) true)
    [[sample_ranked "a" 5 1; sample_ranked "b" 7 1]] []
  = Ok [sample_ranked "b" 7 1].
Proof.
  split; [|by vm_compute].
  intros H.
  destruct (H (ArtistCreditLimiterElement.mk (-1) true)
              [sample_ranked "a" 5 1; sample_ranked "b" 7 1] [])
    as (out & Hread & Hempty & _).
  { repeat constructor; by eexists. }
  rewrite Hempty in Hread by (simpl; lia). vm_compute in Hread. done.
Qed.

(** C4 (amended): for an input whose recordings all have an artist with a
    credit id, a count of zero gives the empty sequence, and every credit
    id with fewer than [count] recordings keeps all of them, in input
    order, whatever the random draws. *)
Theorem limiter_edge_cases (self : ArtistCreditLimiterElement.t)
    (recordings : list Recording) (tape : list nat) :
  Forall attributable recordings →
  ∃ out, ArtistCreditLimiterElement.read self [recordings] tape = Ok out ∧
    (ArtistCreditLimiterElement.count self = 0 → out = []) ∧
    ∀ id, credit_count id recordings < ArtistCreditLimiterElement.count self →
      filter (λ r, credit r = Some id) out
      = filter (λ r, credit r = Some id) recordings.
Proof.
  intros Hattr.
  destruct (limiter_read self recordings tape (attributable_artist _ Hattr))
    as (limited & Hread & Hkeys_nd & Hkeys & Hlim).
  eexists. split; [exact Hread|]. split.
  - intros Hzero. apply filter_none. intros r _ Hsurv.
    apply survivors_elem_of in Hsurv as ([k v] & Hkv & Hm).
    destruct (limited_group _ _ _ _ _ Hlim Hkv) as [_ (ordered & _ & Hcut & _)].
    simpl in Hcut, Hm. rewrite Hcut, Hzero in Hm. by apply elem_of_nil in Hm.
  - intros id Hsmall. apply filter_filter_absorb. intros r Hr Hcr.
    assert (Some id ∈ limited.*1) as Hin by (apply Hkeys; by exists r).
    apply lookup_key in Hin as [v Hv].
    destruct (limited_group _ _ _ _ _ Hlim Hv) as [_ (ordered & Hperm & Hcut & _)].
    simpl in Hperm, Hcut.
    apply survivors_elem_of. exists (Some id, v). split; [done|]. simpl.
    rewrite Hcut, slice_to_all.
    + apply (list_elem_of_fmap_2' fst _ (entry_of r)); [|done].
      rewrite Hperm. unfold group_of. apply list_elem_of_fmap_2.
      by apply list_elem_of_filter.
    + rewrite Hperm. unfold group_of. rewrite length_fmap.
      unfold credit_count in Hsmall. lia.
Qed.

Lemma limiter_edge_cases_witness :
  ∃ out,
    ArtistCreditLimiterElement.read (ArtistCreditLimiterElement.mk 0 true)
      [[sample_ranked "a" 5 1; sample_ranked "b" 7 1; sample_ranked "c" 3 2]]
      [] = Ok out ∧ out = [].
Proof.
  destruct (limiter_edge_cases (ArtistCreditLimiterElement.mk 0 true)
    [sample_ranked "a" 5 1; sample_ranked "b" 7 1; sample_ranked "c" 3 2] [])
    as (out & Hread & Hzero & _).
  - repeat constructor; by eexists.
  - exists out. split; [exact Hread|]. by apply Hzero.
Defined.

(** C3 (as stated): the example fails when the three recordings share one
    mbid: ranked 10, 5 and 1 under one credit id with count 1, the entry
    ranked 10 is the only one left in the group, and all three recordings
    carry its mbid and are returned. *)
Lemma limiter_direction_as_stated_fails :
  ¬ limiter_direction_as_stated ∧
  ArtistCreditLimiterElement.read (ArtistCreditLimiterElement.mk 1 true)
    [[sample_ranked "a" 10 1; sample_ranked "a" 5 1; sample_ranked "a" 1 1]] []
  = Ok [sample_ranked "a" 10 1; sample_ranked "a" 5 1; sample_ranked "a" 1 1].
Proof.
  split; [|by vm_compute].
  intros [_ H].
  destruct (H (sample_ranked "a" 10 1) (sample_ranked "a" 5 1)
              (sample_ranked "a" 1 1) 1
              [sample_ranked "a" 10 1; sample_ranked "a" 5 1;
               sample_ranked "a" 1 1] [])
    as [Hread _]; [done..|].
  vm_compute in Hread. done.
Qed.

(** C3 (amended): when every recording has a ranking (and an artist with a
    credit id), the limiter returns the input recordings whose mbid
    survives, in input order; the survivors of a credit id are the first
    [count] entries of its group sorted by ranking, descending when
    [exclude_lower_ranked] is true and ascending when it is false.  For
    three recordings of pairwise distinct mbid with rankings 10, 5 and 1
    under one credit id, in any order, count 1 keeps exactly the one ranked
    10 when [exclude_lower_ranked] is true and exactly the one ranked 1 when
    it is false. *)
Theorem limiter_ranking_direction :
  (∀ (self : ArtistCreditLimiterElement.t) (recordings : list Recording)
     (tape : list nat),
     all_ranked recordings → Forall attributable recordings →
     ∃ limited,
       ArtistCreditLimiterElement.read self [recordings] tape
       = Ok (filter (λ r, mbid r ∈ survivors limited) recordings) ∧
       NoDup limited.*1 ∧
       (∀ k, k ∈ limited.*1 ↔ ∃ r, r ∈ recordings ∧ credit r = k) ∧
       Forall (λ kv,
                 ∃ ordered,
                   ordered ≡ₚ group_of kv.1 recordings ∧
                   StronglySorted
                     (ranking_order
                        (ArtistCreditLimiterElement.exclude_lower_ranked self))
                     ordered ∧
                   kv.2 = ArtistCreditLimiterElement.slice_to
                            (ArtistCreditLimiterElement.count self) ordered)
              limited) ∧
  (∀ (r10 r5 r1 : Recording) (id : Z) (recordings : list Recording)
     (tape : list nat),
     ranking r10 = Some 10 → ranking r5 = Some 5 → ranking r1 = Some 1 →
     credit r10 = Some id → credit r5 = Some id → credit r1 = Some id →
     mbid r10 ≠ mbid r5 → mbid r10 ≠ mbid r1 → mbid r5 ≠ mbid r1 →
     recordings ≡ₚ [r10; r5; r1] →
     ArtistCreditLimiterElement.read (ArtistCreditLimiterElement.mk 1 true)
       [recordings] tape = Ok [r10] ∧
     ArtistCreditLimiterElement.read (ArtistCreditLimiterElement.mk 1 false)
       [recordings] tape = Ok [r1]).
Proof.
  split.
  - intros self recordings tape Hranked Hattr.
    destruct (limiter_read self recordings tape (attributable_artist _ Hattr))
      as (limited & Hread & Hnd & Hkeys & Hlim).
    exists limited. split; [done|]. split; [done|]. split; [done|].
    eapply Forall_impl; [exact Hlim|].
    intros [k v] [_ (ordered & Hperm & Hcut & Hsort)]. simpl in *.
    exists ordered. split; [done|]. split; [|done].
    rewrite Hsort by (by apply bool_decide_eq_true).
    apply stable_sort_sorted. unfold group_of.
    apply Forall_fmap, Forall_forall. intros r [_ Hr]%list_elem_of_filter.
    by apply (proj1 (Forall_forall _ _) Hranked).
  - intros r10 r5 r1 id recordings tape Hk10 Hk5 Hk1 Hc10 Hc5 Hc1
      H105 H101 H51 Hperm.
    assert (recordings ≠ []) as Hne.
    { intros ->. by apply Permutation_nil_l in Hperm. }
    assert (all_ranked recordings) as Hranked.
    { unfold all_ranked. rewrite Hperm. repeat constructor; by eexists. }
    assert (Forall (λ r, credit r = Some id) recordings) as Hcredit.
    { rewrite Hperm. by repeat constructor. }
    rewrite !(limiter_read_single_group _ recordings tape id) by done.
    symmetry in Hperm. apply permutations_Permutation in Hperm.
    simpl in Hperm. rewrite !elem_of_cons, elem_of_nil in Hperm.
    unfold entry_of.
    destruct Hperm as [->|[->|[->|[->|[->|[->|[]]]]]]];
      cbn [fmap list_fmap]; rewrite Hk10, Hk5, Hk1; simpl;
      rewrite !filter_mbid_cons, !filter_nil;
      repeat case_decide; first [done|congruence].
Qed.

Lemma limiter_ranking_direction_witness :
  (∃ limited,
     ArtistCreditLimiterElement.read (ArtistCreditLimiterElement.mk 1 true)
       [[sample_ranked "y" 5 1; sample_ranked "x" 10 1; sample_ranked "z" 1 1]]
       []
     = Ok (filter (λ r, mbid r ∈ survivors limited)
             [sample_ranked "y" 5 1; sample_ranked "x" 10 1;
              sample_ranked "z" 1 1])) ∧
  ArtistCreditLimiterElement.read (ArtistCreditLimiterElement.mk 1 true)
    [[sample_ranked "y" 5 1; sample_ranked "x" 10 1; sample_ranked "z" 1 1]] []
  = Ok [sample_ranked "x" 10 1] ∧
  ArtistCreditLimiterElement.read (ArtistCreditLimiterElement.mk 1 false)
    [[sample_ranked "y" 5 1; sample_ranked "x" 10 1; sample_ranked "z" 1 1]] []
  = Ok [sample_ranked "z" 1 1].
Proof.
  split.
  - destruct (proj1 limiter_ranking_direction
                (ArtistCreditLimiterElement.mk 1 true)
                [sample_ranked "y" 5 1; sample_ranked "x" 10 1;
                 sample_ranked "z" 1 1] [])
      as (limited & Hread & _).
    + repeat constructor; by eexists.
    + repeat constructor; by eexists.
    + by exists limited.
  - apply (proj2 limiter_ranking_direction
             (sample_ranked "x" 10 1) (sample_ranked "y" 5 1)
             (sample_ranked "z" 1 1) 1); try done.
    apply Permutation_swap.
Defined.

(** * Further properties of the elements *)

(** ** ArtistCreditFilterElement *)

Section credit_filter_more.
Import ArtistCreditFilterElement.

Lemma credit_kept_not_skipped self r : credit_kept self r → ¬ credit_skipped r.
Proof. intros (id & Hid & Hnz & _) [Hs|Hs]; congruence. Qed.

Lemma credit_kept_cases ids r :
  ¬ credit_skipped r →
  (credit_kept (mk ids true) r ∧ ¬ credit_kept (mk ids false) r)
  ∨ (¬ credit_kept (mk ids true) r ∧ credit_kept (mk ids false) r).
Proof.
  intros Hs. unfold credit_kept, credit_passes. simpl.
  destruct (credit r) as [id|] eqn:Hid; [|destruct Hs; by left].
  assert (id ≠ 0) as Hnz by (intros ->; destruct Hs; by right).
  destruct (decide (id ∈ ids)) as [Hin|Hout].
  - left. split.
    + exists id. split; [done|]. split; [done|]. by left.
    + intros (id' & [= <-] & _ & [[[=] _]|[_ Hn]]). done.
  - right. split.
    + intros (id' & [= <-] & _ & [[_ Hn]|[[=] _]]). done.
    + exists id. split; [done|]. split; [done|]. by right.
Qed.

Lemma credit_complement_perm ids l :
  filter (credit_kept (mk ids true)) l ++ filter (credit_kept (mk ids false)) l
  ≡ₚ filter (λ r, ¬ credit_skipped r) l.
Proof.
  induction l as [|r l IH]; [done|].
  rewrite !filter_cons.
  destruct (decide (¬ credit_skipped r)) as [Hs|Hs].
  - destruct (credit_kept_cases ids r Hs) as [[Hi He]|[Hi He]].
    + rewrite decide_True, decide_False by done. simpl. by rewrite IH.
    + rewrite decide_False, decide_True by done.
      by rewrite <- Permutation_middle, IH.
  - rewrite !decide_False; [done|..];
      intros Hk; by apply credit_kept_not_skipped in Hk.
Qed.

Lemma credit_kept_ext ids1 ids2 inc r :
  (∀ id, id ∈ ids1 ↔ id ∈ ids2) →
  credit_kept (mk ids1 inc) r ↔ credit_kept (mk ids2 inc) r.
Proof.
  intros Hsame. unfold credit_kept, credit_passes. simpl.
  split; intros (id & Hid & Hnz & Hp); exists id;
    (split; [done|]); (split; [done|]);
    destruct Hp as [[? ?]|[? ?]]; [left|right|left|right];
    (split; [done|]); rewrite ?Hsame in *; try done;
    by rewrite <- ?Hsame.
Qed.

End credit_filter_more.

(** X1: for one list of ids, the including and the excluding filter split
    the recordings that have a non-zero credit id between them: no recording
    is in both outputs, the two outputs together are those recordings, and
    both runs emit the same diagnostics. *)
Theorem credit_filter_complement (ids : list Z) (recordings : list Recording) :
  ∃ inc exc log,
    ArtistCreditFilterElement.read (ArtistCreditFilterElement.mk ids true)
      [recordings] = (Ok inc, log) ∧
    ArtistCreditFilterElement.read (ArtistCreditFilterElement.mk ids false)
      [recordings] = (Ok exc, log) ∧
    inc ++ exc ≡ₚ filter (λ r, ¬ credit_skipped r) recordings ∧
    ∀ r, ¬ (r ∈ inc ∧ r ∈ exc).
Proof.
  do 3 eexists. split; [apply credit_read|]. split; [apply credit_read|].
  split; [apply credit_complement_perm|].
  intros r [[Hi _]%list_elem_of_filter [He _]%list_elem_of_filter].
  destruct (credit_kept_cases ids r (credit_kept_not_skipped _ _ Hi))
    as [[_ ?]|[? _]]; done.
Qed.

(** X2: the filter uses the configured ids as a set: two lists with the
    same elements (in any order, with any repetitions) give the same output
    and the same diagnostics. *)
Theorem credit_filter_ids_as_set (ids1 ids2 : list Z) (inc : bool)
    (recordings : list Recording) :
  (∀ id, id ∈ ids1 ↔ id ∈ ids2) →
  ArtistCreditFilterElement.read (ArtistCreditFilterElement.mk ids1 inc)
    [recordings]
  = ArtistCreditFilterElement.read (ArtistCreditFilterElement.mk ids2 inc)
      [recordings].
Proof.
  intros Hsame. rewrite !credit_read. do 2 f_equal.
  apply list_filter_iff. intros r. by apply credit_kept_ext.
Qed.

Lemma credit_filter_ids_as_set_witness :
  ArtistCreditFilterElement.read (ArtistCreditFilterElement.mk [1; 2; 1] true)
    [[sample_credit "a" (Some (ac 1)); sample_credit "b" (Some (ac 3))]]
  = ArtistCreditFilterElement.read (ArtistCreditFilterElement.mk [2; 1] true)
      [[sample_credit "a" (Some (ac 1)); sample_credit "b" (Some (ac 3))]].
Proof.
  apply credit_filter_ids_as_set. intros id.
  rewrite !elem_of_cons, !elem_of_nil. tauto.
Defined.

(** X3: filtering the output of the filter again with the same
    configuration returns it unchanged and emits no diagnostic. *)
Theorem credit_filter_idempotent (self : ArtistCreditFilterElement.t)
    (recordings : list Recording) :
  ∃ out log,
    ArtistCreditFilterElement.read self [recordings] = (Ok out, log) ∧
    ArtistCreditFilterElement.read self [out] = (Ok out, []).
Proof.
  do 2 eexists. split; [apply credit_read|]. rewrite credit_read.
  f_equal.
  - f_equal. apply filter_all. by intros r [? _]%list_elem_of_filter.
  - rewrite filter_none; [done|].
    intros r [Hk _]%list_elem_of_filter. by apply credit_kept_not_skipped in Hk.
Qed.


Section filter_chains.
Context {A : Type}.

Lemma filter_comm (P Q : A → Prop)
    `{!∀ x, Decision (P x), !∀ x, Decision (Q x)} (l : list A) :
  filter P (filter Q l) = filter Q (filter P l).
Proof.
  rewrite !list_filter_filter. apply list_filter_iff. intros x. tauto.
Qed.

End filter_chains.

Lemma credit_output_filter self recordings :
  credit_output self recordings = Ok (filter (credit_kept self) recordings).
Proof. unfold credit_output. by rewrite credit_read. Qed.

(** X4: two inclusion/exclusion filters give the same sequence in either
    order; excluding [ids1] and then [ids2] is excluding the ids of both
    lists at once; including [ids1] and then [ids2] is including the ids
    that are in both lists. *)
Theorem credit_filters_compose (f1 f2 : ArtistCreditFilterElement.t)
    (ids1 ids2 : list Z) (recordings : list Recording) :
  credit_output f1 recordings ≫= credit_output f2
  = credit_output f2 recordings ≫= credit_output f1 ∧
  credit_output (ArtistCreditFilterElement.mk ids1 false) recordings
    ≫= credit_output (ArtistCreditFilterElement.mk ids2 false)
  = credit_output (ArtistCreditFilterElement.mk (ids1 ++ ids2) false)
      recordings ∧
  credit_output (ArtistCreditFilterElement.mk ids1 true) recordings
    ≫= credit_output (ArtistCreditFilterElement.mk ids2 true)
  = credit_output
      (ArtistCreditFilterElement.mk (filter (λ id, id ∈ ids2) ids1) true)
      recordings.
Proof.
  rewrite !credit_output_filter. cbn [mbind result_bind].
  rewrite !credit_output_filter. split; [|split]; f_equal.
  - apply filter_comm.
  - rewrite list_filter_filter. apply list_filter_iff. intros r.
    unfold credit_kept, credit_passes. simpl. split.
    + intros [(id & Hid & Hnz & [[[=] _]|[_ H2]])
              (id' & Hid' & _ & [[[=] _]|[_ H1]])].
      exists id. split; [done|]. split; [done|]. right. split; [done|].
      assert (id' = id) as -> by congruence.
      rewrite elem_of_app. tauto.
    + intros (id & Hid & Hnz & [[[=] _]|[_ H12]]).
      rewrite elem_of_app in H12.
      split; exists id; (split; [done|]); (split; [done|]); right;
        (split; [done|]); tauto.
  - rewrite list_filter_filter. apply list_filter_iff. intros r.
    unfold credit_kept, credit_passes. simpl. split.
    + intros [(id & Hid & Hnz & [[_ H2]|[[=] _]])
              (id' & Hid' & _ & [[_ H1]|[[=] _]])].
      exists id. split; [done|]. split; [done|]. left. split; [done|].
      assert (id' = id) as -> by congruence.
      by apply list_elem_of_filter.
    + intros (id & Hid & Hnz & [[_ [H2 H1]%list_elem_of_filter]|[[=] _]]).
      split; exists id; (split; [done|]); (split; [done|]); left; by split.
Qed.

(** ** YearRangeFilterElement *)

Section year_filter_more.
Import YearRangeFilterElement.

Lemma year_kept_usable self r : year_kept self r → year_usable r.
Proof. intros (y & Hy & Hnz & _). by exists y. Qed.

Lemma year_kept_cases s e r :
  year_usable r →
  (year_kept (mk s e false) r ∧ ¬ year_kept (mk s e true) r)
  ∨ (¬ year_kept (mk s e false) r ∧ year_kept (mk s e true) r).
Proof.
  intros (y & Hy & Hnz). unfold year_kept, year_passes. simpl.
  destruct (decide (s ≤ y ∧ y ≤ e)) as [Hin|Hout].
  - left. split.
    + exists y. split; [done|]. split; [done|]. lia.
    + intros (y' & Hy' & _ & Hp). assert (y' = y) as -> by congruence. lia.
  - right. split.
    + intros (y' & Hy' & _ & Hp). assert (y' = y) as -> by congruence. lia.
    + exists y. split; [done|]. split; [done|]. lia.
Qed.

Lemma year_complement_perm s e l :
  filter (year_kept (mk s e false)) l ++ filter (year_kept (mk s e true)) l
  ≡ₚ filter year_usable l.
Proof.
  induction l as [|r l IH]; [done|].
  rewrite !filter_cons.
  destruct (decide (year_usable r)) as [Hu|Hu].
  - destruct (year_kept_cases s e r Hu) as [[Hi He]|[Hi He]].
    + rewrite decide_True, decide_False by done. simpl. by rewrite IH.
    + rewrite decide_False, decide_True by done.
      by rewrite <- Permutation_middle, IH.
  - rewrite !decide_False; [done|..];
      intros Hk; by apply year_kept_usable in Hk.
Qed.

End year_filter_more.

(** X5: for one range, the filter and its inverse split the recordings
    whose year is present and not zero between them: no recording is in both
    outputs and the two outputs together are those recordings. *)
Theorem year_range_complement (s e : Z) (recordings : list Recording)
    (debug : bool) :
  ∃ inside outside,
    YearRangeFilterElement.read (YearRangeFilterElement.mk s e false)
      [recordings] debug = Ok inside ∧
    YearRangeFilterElement.read (YearRangeFilterElement.mk s e true)
      [recordings] debug = Ok outside ∧
    inside ++ outside ≡ₚ filter year_usable recordings ∧
    ∀ r, ¬ (r ∈ inside ∧ r ∈ outside).
Proof.
  do 2 eexists. split; [apply year_read|]. split; [apply year_read|].
  split; [apply year_complement_perm|].
  intros r [[Hi _]%list_elem_of_filter [He _]%list_elem_of_filter].
  destruct (year_kept_cases s e r (year_kept_usable _ _ Hi))
    as [[_ ?]|[? _]]; done.
Qed.

(** X6: a range whose end is below its start keeps nothing; its inverse
    keeps every recording whose year is present and not zero. *)
Theorem year_range_empty (s e : Z) (recordings : list Recording) (debug : bool) :
  e < s →
  YearRangeFilterElement.read (YearRangeFilterElement.mk s e false)
    [recordings] debug = Ok [] ∧
  YearRangeFilterElement.read (YearRangeFilterElement.mk s e true)
    [recordings] debug = Ok (filter year_usable recordings).
Proof.
  intros Hes. rewrite !year_read. split; f_equal.
  - apply filter_none. intros r _ (y & _ & _ & Hp).
    unfold year_passes in Hp. simpl in Hp. lia.
  - apply list_filter_iff. intros r. split; [apply year_kept_usable|].
    intros (y & Hy & Hnz). exists y. split; [done|]. split; [done|].
    unfold year_passes. simpl. lia.
Qed.

Lemma year_range_empty_witness :
  YearRangeFilterElement.read (YearRangeFilterElement.mk 2010 2000 false)
    [[sample_year (Some 2005); sample_year None]] false = Ok [] ∧
  YearRangeFilterElement.read (YearRangeFilterElement.mk 2010 2000 true)
    [[sample_year (Some 2005); sample_year None]] false
  = Ok (filter year_usable [sample_year (Some 2005); sample_year None]).
Proof. apply year_range_empty. lia. Defined.

(** X7: two year-range filters give the same sequence in either order, and
    two filters that are not inverted amount to one filter on the
    intersection of their ranges. *)
Theorem year_ranges_compose (f1 f2 : YearRangeFilterElement.t)
    (s1 e1 s2 e2 : Z) (recordings : list Recording) (debug : bool) :
  (YearRangeFilterElement.read f1 [recordings] debug
     ≫= λ out, YearRangeFilterElement.read f2 [out] debug)
  = (YearRangeFilterElement.read f2 [recordings] debug
       ≫= λ out, YearRangeFilterElement.read f1 [out] debug) ∧
  (YearRangeFilterElement.read (YearRangeFilterElement.mk s1 e1 false)
     [recordings] debug
     ≫= λ out, YearRangeFilterElement.read
                 (YearRangeFilterElement.mk s2 e2 false) [out] debug)
  = YearRangeFilterElement.read
      (YearRangeFilterElement.mk (Z.max s1 s2) (Z.min e1 e2) false)
      [recordings] debug.
Proof.
  rewrite !year_read. cbn [mbind result_bind]. rewrite !year_read.
  split; f_equal; [apply filter_comm|].
  rewrite list_filter_filter. apply list_filter_iff. intros r.
  unfold year_kept, year_passes. simpl. split.
  - intros [(y & Hy & Hnz & H2) (y' & Hy' & _ & H1)].
    assert (y' = y) as -> by congruence.
    exists y. split; [done|]. split; [done|]. lia.
  - intros (y & Hy & Hnz & H12).
    split; exists y; (split; [done|]); (split; [done|]); lia.
Qed.

(** X8: the empty-metadata, year-range and inclusion/exclusion filters can
    be chained in any order: each pair gives the same sequence either
    way. *)
Theorem predicate_filters_commute (yf : YearRangeFilterElement.t)
    (cf : ArtistCreditFilterElement.t) (recordings : list Recording)
    (debug : bool) :
  (EmptyRecordingFilterElement.read [recordings] debug
     ≫= λ out, YearRangeFilterElement.read yf [out] debug)
  = (YearRangeFilterElement.read yf [recordings] debug
       ≫= λ out, EmptyRecordingFilterElement.read [out] debug) ∧
  (EmptyRecordingFilterElement.read [recordings] debug ≫= credit_output cf)
  = (credit_output cf recordings
       ≫= λ out, EmptyRecordingFilterElement.read [out] debug) ∧
  (YearRangeFilterElement.read yf [recordings] debug ≫= credit_output cf)
  = (credit_output cf recordings
       ≫= λ out, YearRangeFilterElement.read yf [out] debug).
Proof.
  rewrite !year_read, !empty_read, !credit_output_filter.
  cbn [mbind result_bind].
  rewrite !year_read, !empty_read, !credit_output_filter.
  split; [|split]; f_equal; apply filter_comm.
Qed.

(** ** DuplicateRecordingFilterElement *)

Section duplicate_filter_more.
Import DuplicateRecordingFilterElement.

Lemma first_occurrences_app seen l1 l2 :
  first_occurrences seen (l1 ++ l2)
  = first_occurrences seen l1 ++ first_occurrences (mbids l1 ∪ seen) l2.
Proof.
  revert seen. induction l1 as [|r l1 IH]; intros seen; simpl.
  - unfold mbids. simpl. by rewrite (left_id_L ∅ (∪)).
  - assert (∀ s : gset string,
              mbids l1 ∪ ({[mbid r]} ∪ s) = mbids (r :: l1) ∪ s) as Hset.
    { intros s. unfold mbids. simpl. set_solver. }
    destruct (decide (mbid r ∈ seen)) as [Hin|Hout].
    + rewrite IH. f_equal. f_equal. unfold mbids. simpl. set_solver.
    + simpl. f_equal. rewrite IH. f_equal. f_equal. apply Hset.
Qed.

Lemma first_occurrences_union (S T : gset string) l :
  first_occurrences (S ∪ T) l
  = filter (λ r, mbid r ∉ S) (first_occurrences T l).
Proof.
  revert T. induction l as [|r l IH]; intros T; simpl; [done|].
  destruct (decide (mbid r ∈ T)) as [HT|HT].
  - rewrite decide_True by set_solver. apply IH.
  - rewrite filter_cons. destruct (decide (mbid r ∈ S)) as [HS|HS].
    + rewrite decide_True by set_solver.
      rewrite decide_False by (intros Hn; by apply Hn).
      rewrite <- IH. f_equal. set_solver.
    + rewrite decide_False by set_solver.
      rewrite decide_True by done. f_equal.
      rewrite <- IH. f_equal. set_solver.
Qed.

Lemma first_occurrences_mbids l :
  mbids (first_occurrences ∅ l) = mbids l.
Proof.
  unfold mbids. apply set_eq. intros m. rewrite !elem_of_list_to_set. split.
  - intros (r & -> & Hr)%list_elem_of_fmap. apply list_elem_of_fmap_2.
    eapply elem_of_sublist; [exact Hr|apply first_occurrences_sublist].
  - intros (r & -> & Hr)%list_elem_of_fmap.
    apply first_occurrences_covers; [done|apply not_elem_of_empty].
Qed.

End duplicate_filter_more.

(** X9: the duplicate filter returns its input unchanged exactly when no
    two recordings of the input have the same mbid. *)
Theorem duplicate_filter_fixpoint (recordings : list Recording) (debug : bool) :
  DuplicateRecordingFilterElement.read [recordings] debug = Ok recordings
  ↔ NoDup (mbid <$> recordings).
Proof.
  rewrite duplicate_read. split.
  - intros [= Heq]. rewrite <- Heq. apply first_occurrences_NoDup.
  - intros Hnd. f_equal. apply first_occurrences_id; [done|].
    intros r _. apply not_elem_of_empty.
Qed.

(** X10: the duplicate filter on a concatenation is the filtered first part
    followed by the filtered second part without the recordings whose mbid
    occurs in the first part. *)
Theorem duplicate_filter_app (l1 l2 : list Recording) (debug : bool) :
  ∃ out1 out2,
    DuplicateRecordingFilterElement.read [l1] debug = Ok out1 ∧
    DuplicateRecordingFilterElement.read [l2] debug = Ok out2 ∧
    DuplicateRecordingFilterElement.read [l1 ++ l2] debug
    = Ok (out1 ++ filter (λ r, mbid r ∉ mbid <$> l1) out2).
Proof.
  do 2 eexists. rewrite !duplicate_read. split; [done|]. split; [done|].
  f_equal. rewrite first_occurrences_app. f_equal.
  rewrite first_occurrences_union. apply list_filter_iff.
  intros r. unfold mbids. by rewrite elem_of_list_to_set.
Qed.

(** X11: the duplicate filter returns as many recordings as the input has
    distinct mbids. *)
Theorem duplicate_filter_length (recordings : list Recording) (debug : bool) :
  ∃ out, DuplicateRecordingFilterElement.read [recordings] debug = Ok out ∧
    length out = size (mbids recordings).
Proof.
  eexists. split; [apply duplicate_read|].
  rewrite <- first_occurrences_mbids. unfold mbids.
  rewrite size_list_to_set by apply first_occurrences_NoDup.
  by rewrite length_fmap.
Qed.

(** ** ConsecutiveRecordingFilterElement *)

Section consecutive_filter_more.
Import ConsecutiveRecordingFilterElement.

Lemma consecutive_collapse_loop l output last_mbid :
  (foldl step (output, last_mbid) l).1 = output ++ collapse last_mbid l.
Proof.
  revert output last_mbid.
  induction l as [|rec l IH]; intros output last_mbid; cbn [foldl].
  - simpl. by rewrite app_nil_r.
  - unfold step at 2. rewrite IH. simpl.
    destruct (decide (Some (mbid rec) = last_mbid)) as [Heq|Hne].
    + by rewrite bool_decide_eq_false_2 by (intros H; by apply H).
    + rewrite bool_decide_eq_true_2 by done. by rewrite <- app_assoc.
Qed.

Lemma consecutive_read_collapse recordings debug :
  read [recordings] debug = Ok (collapse None recordings).
Proof. unfold read. simpl. f_equal. apply consecutive_collapse_loop. Qed.

Lemma collapse_sublist last l : collapse last l `sublist_of` l.
Proof.
  revert last. induction l as [|r l IH]; intros last; simpl; [done|].
  destruct (decide (Some (mbid r) = last)).
  - by apply sublist_cons.
  - by apply sublist_skip.
Qed.

(** The first element kept, if any, differs from [last]. *)
Lemma collapse_head last l r :
  head (collapse last l) = Some r → Some (mbid r) ≠ last.
Proof.
  revert last. induction l as [|x l IH]; intros last; simpl; [done|].
  destruct (decide (Some (mbid x) = last)) as [Heq|Hne].
  - intros Hr. apply IH in Hr. congruence.
  - simpl. by intros [= <-].
Qed.

Lemma collapse_adjacent_distinct last l : adjacent_distinct (collapse last l).
Proof.
  revert last. induction l as [|x l IH]; intros last; simpl; [done|].
  destruct (decide (Some (mbid x) = last)); [apply IH|].
  pose proof (IH (Some (mbid x))) as Hrest.
  pose proof (collapse_head (Some (mbid x)) l) as Hhead.
  destruct (collapse (Some (mbid x)) l) as [|y rest]; [done|].
  split; [|done]. intros Heq. by apply (Hhead y); [|rewrite Heq].
Qed.

Lemma collapse_mbids last l m :
  m ∈ mbid <$> l → Some m = last ∨ m ∈ mbid <$> collapse last l.
Proof.
  revert last. induction l as [|x l IH]; intros last; simpl.
  - by intros ?%elem_of_nil.
  - intros [->|Hin]%elem_of_cons.
    + destruct (decide (Some (mbid x) = last)); [by left|].
      right. simpl. constructor.
    + destruct (IH (Some (mbid x)) Hin) as [[= ->]|Hm].
      * destruct (decide (Some (mbid x) = last)); [by left|].
        right. simpl. constructor.
      * destruct (decide (Some (mbid x) = last)); [by right|].
        right. simpl. by constructor.
Qed.

(** A sequence whose neighbours differ, and whose first element differs from
    [last], passes unchanged. *)
Lemma collapse_id last l :
  adjacent_distinct l →
  (∀ r, head l = Some r → Some (mbid r) ≠ last) →
  collapse last l = l.
Proof.
  revert last. induction l as [|x l IH]; intros last Hadj Hhead; simpl; [done|].
  rewrite decide_False by (by apply Hhead).
  f_equal. destruct l as [|y l]; [done|].
  destruct Hadj as [Hxy Hadj]. apply IH; [done|].
  intros r [= <-]. congruence.
Qed.

Lemma NoDup_adjacent_distinct l :
  NoDup (mbid <$> l) → adjacent_distinct l.
Proof.
  induction l as [|x [|y l] IH]; simpl; [done..|].
  intros [Hx Hnd]%NoDup_cons. split; [|by apply IH].
  intros Heq. apply Hx. rewrite Heq. constructor.
Qed.

Lemma first_occurrences_collapse seen last l :
  (∀ m, last = Some m → m ∈ seen) →
  first_occurrences seen (collapse last l) = first_occurrences seen l.
Proof.
  revert seen last. induction l as [|r l IH]; intros seen last Hlast; simpl;
    [done|].
  destruct (decide (Some (mbid r) = last)) as [Heq|Hne].
  - rewrite decide_True by (by apply Hlast).
    apply IH. intros m [= <-]. by apply Hlast.
  - simpl. destruct (decide (mbid r ∈ seen)) as [Hin|Hout].
    + apply IH. by intros m [= <-].
    + f_equal. apply IH. intros m [= <-]. set_solver.
Qed.

End consecutive_filter_more.

(** X12: the consecutive filter returns a subsequence of its input in which
    no two neighbours have the same mbid; the output starts with the first
    input recording and has every mbid of the input. *)
Theorem consecutive_filter_output (recordings : list Recording) (debug : bool) :
  ∃ out, ConsecutiveRecordingFilterElement.read [recordings] debug = Ok out ∧
    adjacent_distinct out ∧
    (out `sublist_of` recordings) ∧
    head out = head recordings ∧
    ∀ m, m ∈ mbid <$> recordings ↔ m ∈ mbid <$> out.
Proof.
  eexists. split; [apply consecutive_read_collapse|].
  split; [apply collapse_adjacent_distinct|].
  split; [apply collapse_sublist|]. split.
  - by destruct recordings.
  - intros m. split.
    + intros Hm. by destruct (collapse_mbids None recordings m Hm).
    + intros (r & -> & Hr)%list_elem_of_fmap. apply list_elem_of_fmap_2.
      eapply elem_of_sublist; [exact Hr|apply collapse_sublist].
Qed.

(** X13: the consecutive filter is idempotent, and it returns its input
    unchanged exactly when no two neighbours of the input have the same
    mbid. *)
Theorem consecutive_filter_idempotent (recordings : list Recording)
    (debug : bool) :
  (∃ out, ConsecutiveRecordingFilterElement.read [recordings] debug = Ok out ∧
     ConsecutiveRecordingFilterElement.read [out] debug = Ok out) ∧
  (ConsecutiveRecordingFilterElement.read [recordings] debug = Ok recordings
   ↔ adjacent_distinct recordings).
Proof.
  rewrite !consecutive_read_collapse. split.
  - eexists. split; [done|]. rewrite consecutive_read_collapse. f_equal.
    apply collapse_id; [apply collapse_adjacent_distinct|done].
  - split.
    + intros [= Heq]. rewrite <- Heq. apply collapse_adjacent_distinct.
    + intros Hadj. f_equal. by apply collapse_id.
Qed.

(** X14: chained with the duplicate filter, the consecutive filter changes
    nothing: before it or after it, the chain returns what the duplicate
    filter alone returns. *)
Theorem duplicate_absorbs_consecutive (recordings : list Recording)
    (debug : bool) :
  (ConsecutiveRecordingFilterElement.read [recordings] debug
     ≫= λ out, DuplicateRecordingFilterElement.read [out] debug)
  = DuplicateRecordingFilterElement.read [recordings] debug ∧
  (DuplicateRecordingFilterElement.read [recordings] debug
     ≫= λ out, ConsecutiveRecordingFilterElement.read [out] debug)
  = DuplicateRecordingFilterElement.read [recordings] debug.
Proof.
  rewrite consecutive_read_collapse, !duplicate_read.
  cbn [mbind result_bind].
  rewrite consecutive_read_collapse, duplicate_read. split; f_equal.
  - by apply first_occurrences_collapse.
  - apply collapse_id; [|done].
    apply NoDup_adjacent_distinct, first_occurrences_NoDup.
Qed.

(** ** EmptyRecordingFilterElement *)

Section empty_filter_more.
Import EmptyRecordingFilterElement.

Lemma empty_loop_printed debug l output printed :
  (foldl (step debug) (output, printed) l).2
  = printed ++ if debug then no_metadata_message <$> filter no_metadata l
               else [].
Proof.
  revert output printed.
  induction l as [|rec l IH]; intros output printed; simpl.
  - destruct debug; by rewrite app_nil_r.
  - rewrite filter_cons. pose proof (no_metadata_test rec) as Ht.
    destruct (is_None (name rec) || artist_nameless rec).
    + rewrite decide_True by (by apply Ht). rewrite IH.
      destruct debug; [|done]. by rewrite <- app_assoc.
    + rewrite decide_False by (intros Hn; apply Ht in Hn; done).
      by rewrite IH.
Qed.

End empty_filter_more.

(** X15: [debug] changes only what the empty-metadata filter prints: the
    returned sequence is the same; with [debug] one line is printed for
    every removed recording, in input order, and without it nothing is
    printed. *)
Theorem empty_filter_debug (recordings : list Recording) :
  EmptyRecordingFilterElement.read [recordings] true
  = EmptyRecordingFilterElement.read [recordings] false ∧
  (EmptyRecordingFilterElement.read_io [recordings] true).2
  = no_metadata_message <$> filter no_metadata recordings ∧
  (EmptyRecordingFilterElement.read_io [recordings] false).2 = [].
Proof.
  split; [by rewrite !empty_read|].
  unfold EmptyRecordingFilterElement.read_io. simpl.
  pose proof (empty_loop_printed true recordings [] []) as Ht.
  pose proof (empty_loop_printed false recordings [] []) as Hf.
  destruct (foldl (EmptyRecordingFilterElement.step true) ([], []) recordings).
  destruct (foldl (EmptyRecordingFilterElement.step false) ([], []) recordings).
  by split.
Qed.

(** ** ArtistCreditLimiterElement *)

Section limiter_more.
Import ArtistCreditLimiterElement.

Lemma filter_ext_in {A} (P Q : A → Prop)
    `{!∀ x, Decision (P x), !∀ x, Decision (Q x)} (l : list A) :
  (∀ x, x ∈ l → (P x ↔ Q x)) → filter P l = filter Q l.
Proof.
  induction l as [|x l IH]; intros Hl; [done|].
  rewrite !filter_cons.
  assert (filter P l = filter Q l) as ->.
  { apply IH. intros y Hy. apply Hl. by constructor. }
  pose proof (Hl x (list_elem_of_here _ _)) as Hx.
  destruct (decide (P x)), (decide (Q x)); tauto.
Qed.

Lemma slice_to_length_eq {A} n (l : list A) :
  Z.of_nat (length (slice_to n l)) = slice_length n (Z.of_nat (length l)).
Proof.
  unfold slice_to, slice_length. destruct (Z.leb_spec 0 n);
    rewrite length_take; lia.
Qed.

Lemma group_of_mbids k l : (group_of k l).*1 = mbid <$> filter (λ r, credit r = k) l.
Proof. unfold group_of. rewrite <- list_fmap_compose. done. Qed.

Lemma group_of_NoDup k l : NoDup (mbid <$> l) → NoDup (group_of k l).*1.
Proof.
  intros Hnd. rewrite group_of_mbids.
  eapply sublist_NoDup; [exact Hnd|]. apply fmap_sublist, sublist_filter.
Qed.

(** With pairwise distinct mbids, the recordings of a key survive exactly
    through the entries left under that key. *)
Lemma limiter_read_groups self recordings tape :
  Forall has_artist recordings →
  NoDup (mbid <$> recordings) →
  ∃ out,
    read self [recordings] tape = Ok out ∧
    (∃ pass_recs : list string,
       out = filter (λ r, mbid r ∈ pass_recs) recordings) ∧
    (out `sublist_of` recordings) ∧
    ∀ k, ∃ ordered,
      ordered ≡ₚ group_of k recordings ∧
      (all_ranked recordings →
       ordered = stable_sort (exclude_lower_ranked self) (group_of k recordings)) ∧
      (∀ r, r ∈ recordings → credit r = k →
            (r ∈ out ↔ entry_of r ∈ slice_to (count self) ordered)).
Proof.
  intros Hart Hnd.
  destruct (limiter_read self recordings tape Hart)
    as (limited & Hread & Hkeys_nd & Hkeys & Hlim).
  eexists. split; [exact Hread|]. split; [by eexists|].
  split; [apply sublist_filter|].
  intros k. destruct (decide (k ∈ limited.*1)) as [Hin|Hout].
  - apply lookup_key in Hin as [v Hv].
    destruct (limited_group _ _ _ _ _ Hlim Hv)
      as [_ (ordered & Hperm & Hcut & Hsort)]. simpl in Hperm, Hcut, Hsort.
    exists ordered. split; [done|]. split.
    { intros Hr. by apply Hsort, bool_decide_eq_true. }
    intros r Hr Hk. rewrite list_elem_of_filter, survivors_elem_of, <- Hcut.
    split.
    + intros [([k2 v2] & Hkv2 & Hm) _].
      destruct (survivor_origin _ _ _ _ _ _
                  (limited_group _ _ _ _ _ Hlim Hkv2) Hm)
        as (r2 & Hr2 & Hk2 & Hmb).
      assert (r2 = r) as -> by (by apply (NoDup_fmap_eq mbid recordings)).
      simpl in Hk2, Hm. rewrite Hk in Hk2. subst k2.
      rewrite (NoDup_keys_eq limited k v v2) by done.
      apply list_elem_of_fmap in Hm as ([m rk] & Hm & He). simpl in Hm.
      assert ((m, rk) ∈ group_of k recordings) as Hg.
      { rewrite <- Hperm.
        assert (v2 = v) as ->
          by (symmetry; by apply (NoDup_keys_eq limited k)).
        rewrite Hcut in He.
        exact (elem_of_sublist _ _ _ He (slice_to_sublist _ _)). }
      unfold group_of in Hg.
      apply list_elem_of_fmap in Hg as (r3 & Hr3 & [_ Hin3]%list_elem_of_filter).
      injection Hr3 as -> ->.
      assert (r3 = r) as -> by (by apply (NoDup_fmap_eq mbid recordings)).
      done.
    + intros He. split; [|done]. exists (k, v). split; [done|]. simpl.
      by apply (list_elem_of_fmap_2' fst _ (entry_of r)).
  - assert (group_of k recordings = []) as Hempty.
    { unfold group_of. rewrite filter_none; [done|].
      intros r Hr Hk. apply Hout, Hkeys. by exists r. }
    exists []. rewrite Hempty. split; [done|]. split.
    { intros _. done. }
    intros r Hr Hk. destruct Hout. apply Hkeys. by exists r.
Qed.

Lemma has_artist_sublist l1 l2 :
  l1 `sublist_of` l2 → Forall has_artist l2 → Forall has_artist l1.
Proof.
  intros Hsub Hl2. apply Forall_forall. intros r Hr.
  apply (proj1 (Forall_forall _ _) Hl2). by eapply elem_of_sublist.
Qed.

(** With pairwise distinct mbids, every key keeps as many recordings as its
    cut group has entries. *)
Lemma limiter_group_sizes self recordings tape :
  Forall has_artist recordings →
  NoDup (mbid <$> recordings) →
  ∃ out,
    read self [recordings] tape = Ok out ∧
    (out `sublist_of` recordings) ∧
    ∀ k, key_count k out = slice_length (count self) (key_count k recordings).
Proof.
  intros Hart Hnd.
  destruct (limiter_read_groups self recordings tape Hart Hnd)
    as (out & Hread & _ & Hsub & Hgroups).
  exists out. split; [done|]. split; [done|]. intros k.
  destruct (Hgroups k) as (ordered & Hperm & _ & Hin).
  assert (entry_of <$> filter (λ r, credit r = k) out
          ≡ₚ slice_to (count self) ordered) as Hsame.
  { apply NoDup_Permutation.
    - apply (NoDup_fmap_1 fst). rewrite <- list_fmap_compose.
      eapply sublist_NoDup; [exact Hnd|].
      apply fmap_sublist. etrans; [apply sublist_filter|done].
    - eapply sublist_NoDup; [|apply slice_to_sublist].
      rewrite Hperm. apply (NoDup_fmap_1 fst). by apply group_of_NoDup.
    - intros e. split.
      + intros (r & -> & [Hk Hr]%list_elem_of_filter)%list_elem_of_fmap.
        apply Hin; [|done..]. by eapply elem_of_sublist.
      + intros He.
        pose proof (elem_of_sublist _ _ _ He (slice_to_sublist _ _)) as Ho.
        rewrite Hperm in Ho. unfold group_of in Ho.
        apply list_elem_of_fmap in Ho as (r & -> & [Hk Hr]%list_elem_of_filter).
        apply list_elem_of_fmap_2, list_elem_of_filter. split; [done|].
        by apply Hin. }
  unfold key_count.
  rewrite <- (length_fmap entry_of), Hsame, slice_to_length_eq, Hperm.
  unfold group_of. by rewrite length_fmap.
Qed.

(** When no key has more recordings than [count], everything passes. *)
Lemma limiter_noop self recordings tape :
  Forall has_artist recordings →
  (∀ k, key_count k recordings ≤ count self) →
  read self [recordings] tape = Ok recordings.
Proof.
  intros Hart Hsmall.
  destruct (limiter_read self recordings tape Hart)
    as (limited & Hread & Hkeys_nd & Hkeys & Hlim).
  rewrite Hread. f_equal. apply filter_all. intros r Hr.
  assert (credit r ∈ limited.*1) as Hin by (apply Hkeys; by exists r).
  apply lookup_key in Hin as [v Hv].
  destruct (limited_group _ _ _ _ _ Hlim Hv)
    as [_ (ordered & Hperm & Hcut & _)]. simpl in Hperm, Hcut.
  apply survivors_elem_of. exists (credit r, v). split; [done|]. simpl.
  rewrite Hcut, slice_to_all.
  - apply (list_elem_of_fmap_2' fst _ (entry_of r)); [|done].
    rewrite Hperm. unfold group_of. apply list_elem_of_fmap_2.
    by apply list_elem_of_filter.
  - rewrite Hperm. unfold group_of. rewrite length_fmap.
    apply (Hsmall (credit r)).
Qed.

(** A group that is already in ranking order is left as it is by the sort:
    equal rankings keep their input order. *)
Lemma stable_sort_id reverse l :
  StronglySorted (ranking_order reverse) l → stable_sort reverse l = l.
Proof.
  induction 1 as [|e l Hs IH He]; [done|].
  cbn [stable_sort foldr]. fold (stable_sort reverse l). rewrite IH.
  destruct l as [|y l]; [done|]. simpl.
  apply Forall_cons in He as [He _]. unfold ranking_order in He.
  destruct (e.2) as [a|], (y.2) as [b|]; try done. simpl.
  destruct reverse.
  - by destruct (Z.ltb_spec a b); [lia|].
  - by destruct (Z.ltb_spec b a); [lia|].
Qed.

Lemma filter_take_id {A B} `{!EqDecision B} (f : A → B) (l : list A) n :
  NoDup (f <$> l) →
  filter (λ x, f x ∈ take n (f <$> l)) l = take n l.
Proof.
  revert n. induction l as [|x l IH]; intros n Hnd.
  - by destruct n.
  - destruct n as [|n].
    + simpl. apply filter_none. intros y _ ?%elem_of_nil. done.
    + apply NoDup_cons in Hnd as [Hx Hnd]. cbn [fmap list_fmap take].
      rewrite filter_cons, decide_True by constructor. f_equal.
      rewrite <- (IH n Hnd). apply filter_ext_in. intros y Hy.
      rewrite elem_of_cons. split; [|by right].
      intros [Heq|?]; [|done]. destruct Hx. rewrite <- Heq.
      by apply list_elem_of_fmap_2.
Qed.

Lemma slice_length_le n len : 0 ≤ n → slice_length n len ≤ n.
Proof. intros Hn. unfold slice_length. destruct (Z.leb_spec 0 n); lia. Qed.

End limiter_more.

(** X16: the limiter returns a subsequence of its input (the recordings
    that pass keep their input order) whenever every recording has an
    artist, for every random draw. *)
Theorem limiter_subsequence (self : ArtistCreditLimiterElement.t)
    (recordings : list Recording) (tape : list nat) :
  Forall has_artist recordings →
  ∃ out, ArtistCreditLimiterElement.read self [recordings] tape = Ok out ∧
    out `sublist_of` recordings.
Proof.
  intros Hart.
  destruct (limiter_read self recordings tape Hart) as (limited & Hread & _).
  eexists. split; [exact Hread|]. apply sublist_filter.
Qed.

Lemma limiter_subsequence_witness :
  ∃ out,
    ArtistCreditLimiterElement.read (ArtistCreditLimiterElement.mk 1 true)
      [[sample_ranked "a" 5 1; sample_credit "b" (Some (ac 1))]] [7%nat]
    = Ok out ∧
    out `sublist_of` [sample_ranked "a" 5 1; sample_credit "b" (Some (ac 1))].
Proof.
  apply limiter_subsequence. repeat constructor; by eexists.
Defined.

(** X17: when every recording has a ranking, the limiter does not depend on
    the random draws. *)
Theorem limiter_ranked_deterministic (self : ArtistCreditLimiterElement.t)
    (recordings : list Recording) (tape1 tape2 : list nat) :
  all_ranked recordings →
  ArtistCreditLimiterElement.read self [recordings] tape1
  = ArtistCreditLimiterElement.read self [recordings] tape2.
Proof.
  intros Hranked.
  destruct (decide (Forall has_artist recordings)) as [Hart|Hex].
  - destruct (limiter_read self recordings tape1 Hart)
      as (lim1 & -> & Hnd1 & Hkeys1 & Hlim1).
    destruct (limiter_read self recordings tape2 Hart)
      as (lim2 & -> & Hnd2 & Hkeys2 & Hlim2).
    f_equal. apply list_filter_iff. intros r.
    assert (∀ la lb : ArtistCreditLimiterElement.index,
              (∀ k, k ∈ la.*1 ↔ ∃ r, r ∈ recordings ∧ credit r = k) →
              (∀ k, k ∈ lb.*1 ↔ ∃ r, r ∈ recordings ∧ credit r = k) →
              Forall (λ kv, limited_from self
                              (bool_decide (all_ranked recordings))
                              (kv.1, group_of kv.1 recordings) kv) la →
              Forall (λ kv, limited_from self
                              (bool_decide (all_ranked recordings))
                              (kv.1, group_of kv.1 recordings) kv) lb →
              mbid r ∈ survivors la → mbid r ∈ survivors lb) as Hone.
    { intros la lb Hka Hkb Hla Hlb.
      rewrite !survivors_elem_of. intros ([k v] & Hkv & Hm).
      assert (k ∈ lb.*1) as Hin.
      { apply Hkb, Hka. by apply (list_elem_of_fmap_2 fst _ (k, v)). }
      apply lookup_key in Hin as [v' Hv'].
      exists (k, v'). split; [done|].
      destruct (limited_group _ _ _ _ _ Hla Hkv)
        as [_ (oa & _ & Hcuta & Hsorta)].
      destruct (limited_group _ _ _ _ _ Hlb Hv')
        as [_ (ob & _ & Hcutb & Hsortb)].
      simpl in *. rewrite Hcutb, Hsortb by (by apply bool_decide_eq_true).
      by rewrite <- Hsorta, <- Hcuta by (by apply bool_decide_eq_true). }
    split; by apply Hone.
  - apply not_Forall_Exists in Hex; [|apply _].
    assert (Exists (λ r, artist r = None) recordings) as Hnone.
    { eapply Exists_impl; [exact Hex|]. intros r Hr.
      destruct (artist r) as [a|] eqn:Ha; [|done].
      destruct Hr. unfold has_artist. rewrite Ha. by eexists. }
    by rewrite !limiter_read_raises.
Qed.

Lemma limiter_ranked_deterministic_witness :
  ArtistCreditLimiterElement.read (ArtistCreditLimiterElement.mk 1 true)
    [[sample_ranked "a" 5 1; sample_ranked "b" 7 1]] [3%nat; 1%nat]
  = ArtistCreditLimiterElement.read (ArtistCreditLimiterElement.mk 1 true)
      [[sample_ranked "a" 5 1; sample_ranked "b" 7 1]] [].
Proof.
  apply limiter_ranked_deterministic. repeat constructor; by eexists.
Defined.

(** X18: with pairwise distinct mbids, the limiter keeps of every key (a
    credit id, or [None] for the recordings whose artist has none) exactly
    as many recordings as the slice [[:count]] leaves of its group: the
    smaller of [count] and the group size when [count] is zero or more, and
    the group size less [-count] (or nothing) when [count] is negative. *)
Theorem limiter_exact_sizes (self : ArtistCreditLimiterElement.t)
    (recordings : list Recording) (tape : list nat) :
  Forall has_artist recordings →
  NoDup (mbid <$> recordings) →
  ∃ out, ArtistCreditLimiterElement.read self [recordings] tape = Ok out ∧
    ∀ k, key_count k out
         = if 0 <=? ArtistCreditLimiterElement.count self
           then Z.min (ArtistCreditLimiterElement.count self)
                      (key_count k recordings)
           else Z.max 0 (key_count k recordings
                         + ArtistCreditLimiterElement.count self).
Proof.
  intros Hart Hnd.
  destruct (limiter_group_sizes self recordings tape Hart Hnd)
    as (out & Hread & _ & Hsizes).
  exists out. split; [done|]. intros k. by rewrite Hsizes.
Qed.

Lemma limiter_exact_sizes_witness :
  ∃ out,
    ArtistCreditLimiterElement.read (ArtistCreditLimiterElement.mk 1 true)
      [[sample_ranked "a" 5 1; sample_credit "b" (Some (ac 1));
        sample_credit "c" (Some (mkArtist None None))]] [4%nat]
    = Ok out ∧ key_count (Some 1) out = 1 ∧ key_count None out = 1.
Proof.
  destruct (limiter_exact_sizes (ArtistCreditLimiterElement.mk 1 true)
      [sample_ranked "a" 5 1; sample_credit "b" (Some (ac 1));
       sample_credit "c" (Some (mkArtist None None))] [4%nat])
    as (out & Hread & Hsizes).
  - repeat constructor; by eexists.
  - apply (bool_decide_unpack _). vm_compute. exact I.
  - exists out. split; [exact Hread|].
    split; [exact (Hsizes (Some 1))|exact (Hsizes None)].
Defined.

(** X19: with pairwise distinct mbids, a count of zero or more and a
    ranking on every recording, within a credit id no recording that is
    dropped is ranked better than one that is kept: not higher when
    [exclude_lower_ranked] is true, not lower when it is false. *)
Theorem limiter_keeps_best (self : ArtistCreditLimiterElement.t)
    (recordings : list Recording) (tape : list nat) :
  0 ≤ ArtistCreditLimiterElement.count self →
  all_ranked recordings →
  Forall has_artist recordings →
  NoDup (mbid <$> recordings) →
  ∃ out, ArtistCreditLimiterElement.read self [recordings] tape = Ok out ∧
    ∀ kept dropped,
      kept ∈ out → dropped ∈ recordings → dropped ∉ out →
      credit kept = credit dropped →
      ∃ a b, ranking kept = Some a ∧ ranking dropped = Some b ∧
        if ArtistCreditLimiterElement.exclude_lower_ranked self
        then b ≤ a else a ≤ b.
Proof.
  intros Hcount Hranked Hart Hnd.
  destruct (limiter_read_groups self recordings tape Hart Hnd)
    as (out & Hread & _ & Hsub & Hgroups).
  exists out. split; [done|]. intros kept dropped Hkept Hdropped Hout Hcredit.
  destruct (Hgroups (credit dropped)) as (ordered & Hperm & Hsort & Hin).
  specialize (Hsort Hranked).
  assert (StronglySorted
            (ranking_order (ArtistCreditLimiterElement.exclude_lower_ranked self))
            ordered) as Hsorted.
  { rewrite Hsort. apply stable_sort_sorted. unfold group_of.
    apply Forall_fmap, Forall_forall. intros r [_ Hr]%list_elem_of_filter.
    by apply (proj1 (Forall_forall _ _) Hranked). }
  assert (ArtistCreditLimiterElement.slice_to
            (ArtistCreditLimiterElement.count self) ordered
          = take (Z.to_nat (ArtistCreditLimiterElement.count self)) ordered)
    as Hslice.
  { unfold ArtistCreditLimiterElement.slice_to.
    by destruct (Z.leb_spec 0 (ArtistCreditLimiterElement.count self)); [|lia]. }
  rewrite Hslice in Hin.
  assert (entry_of kept
          ∈ take (Z.to_nat (ArtistCreditLimiterElement.count self)) ordered)
    as Hk.
  { apply Hin; [by eapply elem_of_sublist|done|done]. }
  assert (entry_of dropped
          ∈ drop (Z.to_nat (ArtistCreditLimiterElement.count self)) ordered)
    as Hd.
  { assert (entry_of dropped ∈ ordered) as Ho.
    { rewrite Hperm. unfold group_of. apply list_elem_of_fmap_2.
      by apply list_elem_of_filter. }
    rewrite <- (take_drop (Z.to_nat (ArtistCreditLimiterElement.count self))
                  ordered) in Ho.
    apply elem_of_app in Ho as [Ho|Ho]; [|done].
    destruct Hout. by apply Hin. }
  rewrite <- (take_drop (Z.to_nat (ArtistCreditLimiterElement.count self))
                ordered) in Hsorted.
  pose proof (StronglySorted_app_1_elem_of _ _ _ _ _ Hsorted Hk Hd) as Hord.
  unfold ranking_order, entry_of in Hord. simpl in Hord.
  destruct (ranking kept) as [a|]; [|done].
  destruct (ranking dropped) as [b|]; [|done].
  by exists a, b.
Qed.

Lemma limiter_keeps_best_witness :
  ∃ out,
    ArtistCreditLimiterElement.read (ArtistCreditLimiterElement.mk 1 true)
      [[sample_ranked "a" 5 1; sample_ranked "b" 7 1]] [] = Ok out ∧
    ∀ kept dropped,
      kept ∈ out → dropped ∈ [sample_ranked "a" 5 1; sample_ranked "b" 7 1] →
      dropped ∉ out → credit kept = credit dropped →
      ∃ a b, ranking kept = Some a ∧ ranking dropped = Some b ∧ b ≤ a.
Proof.
  apply (limiter_keeps_best (ArtistCreditLimiterElement.mk 1 true)
           [sample_ranked "a" 5 1; sample_ranked "b" 7 1] []).
  - simpl. lia.
  - repeat constructor; by eexists.
  - repeat constructor; by eexists.
  - apply (bool_decide_unpack _). vm_compute. exact I.
Defined.

(** X20: when no key has more than [count] recordings, the limiter returns
    its input unchanged, for every random draw (also when mbids repeat). *)
Theorem limiter_within_limit (self : ArtistCreditLimiterElement.t)
    (recordings : list Recording) (tape : list nat) :
  Forall has_artist recordings →
  (∀ k, key_count k recordings ≤ ArtistCreditLimiterElement.count self) →
  ArtistCreditLimiterElement.read self [recordings] tape = Ok recordings.
Proof. apply limiter_noop. Qed.

Lemma limiter_within_limit_witness :
  ArtistCreditLimiterElement.read ArtistCreditLimiterElement.init
    [[sample_ranked "a" 5 1; sample_credit "b" (Some (ac 1));
      sample_ranked "a" 5 2]] [9%nat]
  = Ok [sample_ranked "a" 5 1; sample_credit "b" (Some (ac 1));
        sample_ranked "a" 5 2].
Proof.
  apply limiter_within_limit.
  - repeat constructor; by eexists.
  - intros k. unfold key_count. rewrite !filter_cons, filter_nil. simpl.
    repeat case_decide; unfold credit in *; simplify_eq/=; lia.
Defined.

(** X21: with pairwise distinct mbids and a count of zero or more, the
    limiter is idempotent: its output passes unchanged through the same
    limiter, whatever the random draws of either run. *)
Theorem limiter_idempotent (self : ArtistCreditLimiterElement.t)
    (recordings : list Recording) (tape : list nat) :
  0 ≤ ArtistCreditLimiterElement.count self →
  Forall has_artist recordings →
  NoDup (mbid <$> recordings) →
  ∃ out, ArtistCreditLimiterElement.read self [recordings] tape = Ok out ∧
    ∀ tape', ArtistCreditLimiterElement.read self [out] tape' = Ok out.
Proof.
  intros Hcount Hart Hnd.
  destruct (limiter_group_sizes self recordings tape Hart Hnd)
    as (out & Hread & Hsub & Hsizes).
  exists out. split; [done|]. intros tape'. apply limiter_noop.
  - by eapply has_artist_sublist.
  - intros k. rewrite Hsizes. by apply slice_length_le.
Qed.

Lemma limiter_idempotent_witness :
  ∃ out,
    ArtistCreditLimiterElement.read (ArtistCreditLimiterElement.mk 1 true)
      [[sample_ranked "a" 5 1; sample_credit "b" (Some (ac 1))]] [1%nat]
    = Ok out ∧
    ∀ tape',
      ArtistCreditLimiterElement.read (ArtistCreditLimiterElement.mk 1 true)
        [out] tape' = Ok out.
Proof.
  apply (limiter_idempotent (ArtistCreditLimiterElement.mk 1 true)
           [sample_ranked "a" 5 1; sample_credit "b" (Some (ac 1))] [1%nat]).
  - simpl. lia.
  - repeat constructor; by eexists.
  - apply (bool_decide_unpack _). vm_compute. exact I.
Defined.

(** X22: behind the duplicate filter the limiter keeps its cap on every
    input: for a count of zero or more and recordings that all have an
    artist, the chain returns at most [count] recordings of every key, mbids
    repeated in the input or not. *)
Theorem duplicate_then_limiter_cap (self : ArtistCreditLimiterElement.t)
    (recordings : list Recording) (debug : bool) (tape : list nat) :
  0 ≤ ArtistCreditLimiterElement.count self →
  Forall has_artist recordings →
  ∃ out,
    (DuplicateRecordingFilterElement.read [recordings] debug
       ≫= λ unique, ArtistCreditLimiterElement.read self [unique] tape)
    = Ok out ∧
    (out `sublist_of` recordings) ∧
    ∀ k, key_count k out ≤ ArtistCreditLimiterElement.count self.
Proof.
  intros Hcount Hart. rewrite duplicate_read. cbn [mbind result_bind].
  destruct (limiter_group_sizes self (first_occurrences ∅ recordings) tape)
    as (out & Hread & Hsub & Hsizes).
  - eapply has_artist_sublist; [apply first_occurrences_sublist|done].
  - apply first_occurrences_NoDup.
  - exists out. split; [done|]. split.
    + etrans; [exact Hsub|apply first_occurrences_sublist].
    + intros k. rewrite Hsizes. by apply slice_length_le.
Qed.

Lemma duplicate_then_limiter_cap_witness :
  ∃ out,
    (DuplicateRecordingFilterElement.read
       [[sample_ranked "a" 5 1; sample_ranked "a" 5 1; sample_ranked "b" 7 1]]
       false
       ≫= λ unique,
            ArtistCreditLimiterElement.read
              (ArtistCreditLimiterElement.mk 1 true) [unique] [])
    = Ok out ∧
    (out `sublist_of`
       [sample_ranked "a" 5 1; sample_ranked "a" 5 1; sample_ranked "b" 7 1]) ∧
    ∀ k, key_count k out ≤ 1.
Proof.
  apply (duplicate_then_limiter_cap (ArtistCreditLimiterElement.mk 1 true)
           [sample_ranked "a" 5 1; sample_ranked "a" 5 1; sample_ranked "b" 7 1]
           false []).
  - simpl. lia.
  - repeat constructor; by eexists.
Defined.

(** X23: the sort of the limiter is stable.  With pairwise distinct mbids, a
    count of zero or more and a ranking on every recording, a credit id
    whose recordings are already in ranking order in the input (for one,
    because they all have the same ranking) keeps its first [count]
    recordings. *)
Theorem limiter_keeps_first_of_ordered (self : ArtistCreditLimiterElement.t)
    (recordings : list Recording) (tape : list nat) (k : option Z) :
  0 ≤ ArtistCreditLimiterElement.count self →
  all_ranked recordings →
  Forall has_artist recordings →
  NoDup (mbid <$> recordings) →
  StronglySorted
    (ranking_order (ArtistCreditLimiterElement.exclude_lower_ranked self))
    (group_of k recordings) →
  ∃ out, ArtistCreditLimiterElement.read self [recordings] tape = Ok out ∧
    filter (λ r, credit r = k) out
    = take (Z.to_nat (ArtistCreditLimiterElement.count self))
        (filter (λ r, credit r = k) recordings).
Proof.
  intros Hcount Hranked Hart Hnd Hsorted.
  destruct (limiter_read_groups self recordings tape Hart Hnd)
    as (out & Hread & [pass_recs Hout] & Hsub & Hgroups).
  exists out. split; [done|].
  destruct (Hgroups k) as (ordered & _ & Hsort & Hin).
  rewrite (Hsort Hranked), (stable_sort_id _ _ Hsorted) in Hin.
  assert (∀ l : list ArtistCreditLimiterElement.entry,
            ArtistCreditLimiterElement.slice_to
              (ArtistCreditLimiterElement.count self) l
            = take (Z.to_nat (ArtistCreditLimiterElement.count self)) l)
    as Hslice.
  { intros l. unfold ArtistCreditLimiterElement.slice_to.
    by destruct (Z.leb_spec 0 (ArtistCreditLimiterElement.count self)); [|lia]. }
  rewrite Hslice in Hin. unfold group_of in Hin.
  set (G := filter (λ r, credit r = k) recordings) in *.
  rewrite <- (filter_take_id entry_of G).
  - rewrite Hout, filter_comm. fold G. apply filter_ext_in.
    intros r [Hk Hr]%list_elem_of_filter.
    rewrite <- (Hin r Hr Hk), Hout, list_elem_of_filter. tauto.
  - apply (NoDup_fmap_1 fst). rewrite <- list_fmap_compose.
    eapply sublist_NoDup; [exact Hnd|]. apply fmap_sublist, sublist_filter.
Qed.

Lemma limiter_keeps_first_of_ordered_witness :
  ∃ out,
    ArtistCreditLimiterElement.read (ArtistCreditLimiterElement.mk 2 true)
      [[sample_ranked "a" 5 1; sample_ranked "b" 5 1; sample_ranked "c" 5 1]]
      [] = Ok out ∧
    filter (λ r, credit r = Some 1) out
    = take (Z.to_nat 2)
        (filter (λ r, credit r = Some 1)
           [sample_ranked "a" 5 1; sample_ranked "b" 5 1;
            sample_ranked "c" 5 1]).
Proof.
  apply (limiter_keeps_first_of_ordered
           (ArtistCreditLimiterElement.mk 2 true)
           [sample_ranked "a" 5 1; sample_ranked "b" 5 1; sample_ranked "c" 5 1]
           [] (Some 1)).
  - simpl. lia.
  - repeat constructor; by eexists.
  - repeat constructor; by eexists.
  - apply (bool_decide_unpack _). vm_compute. exact I.
  - assert (group_of (Some 1)
              [sample_ranked "a" 5 1; sample_ranked "b" 5 1;
               sample_ranked "c" 5 1]
            = [("a"%string, Some 5); ("b"%string, Some 5);
               ("c"%string, Some 5)]) as -> by (by vm_compute).
    repeat constructor; unfold ranking_order; simpl; lia.
Defined.

(** *** The limiter without rankings *)

Section limiter_unranked.
Import ArtistCreditLimiterElement.

Lemma swap_fmap {A B} (f : A → B) i j (x : list A) :
  swap i j (f <$> x) = f <$> swap i j x.
Proof.
  unfold swap. rewrite !list_lookup_fmap.
  destruct (x !! i) as [xi|], (x !! j) as [xj|]; simpl; try done.
  by rewrite !list_fmap_insert.
Qed.

Lemma shuffle_fmap {A B} (f : A → B) (x : list A) tape :
  shuffle (f <$> x) tape = (f <$> (shuffle x tape).1, (shuffle x tape).2).
Proof.
  unfold shuffle. rewrite length_fmap.
  generalize (rev (seq 1 (length x - 1))). intros steps.
  revert x tape. induction steps as [|i steps IH]; intros x tape; [done|].
  cbn [foldl fst snd]. destruct (randbelow (i + 1) tape) as [j tape'].
  rewrite swap_fmap. apply IH.
Qed.

Lemma slice_to_fmap {A B} (f : A → B) n (l : list A) :
  f <$> slice_to n l = slice_to n (f <$> l).
Proof.
  unfold slice_to. rewrite length_fmap.
  destruct (0 <=? n); by rewrite fmap_take.
Qed.

Lemma index_mbids_append key (e1 e2 : entry) (idx1 idx2 : index) :
  e1.1 = e2.1 → index_mbids idx1 = index_mbids idx2 →
  index_mbids (dd_append key e1 idx1) = index_mbids (dd_append key e2 idx2).
Proof.
  intros He. revert idx2.
  induction idx1 as [|[k1 v1] idx1 IH]; intros [|[k2 v2] idx2] Hidx;
    try done; simpl.
  - unfold index_mbids. simpl. by rewrite He.
  - unfold index_mbids in Hidx. simpl in Hidx.
    injection Hidx as -> Hv Hrest.
    destruct (decide (k2 = key)) as [->|Hne].
    + unfold index_mbids. simpl. rewrite !fmap_app, Hv. simpl.
      rewrite He. by f_equal.
    + unfold index_mbids. simpl. rewrite Hv. f_equal.
      by apply IH.
Qed.

(** The first loop on two inputs that agree on mbids and artists builds
    the same index up to rankings, or raises for both. *)
Lemma group_loop_without_ranking l1 l2 (idx1 idx2 : index) (b1 b2 : bool) :
  without_ranking <$> l1 = without_ranking <$> l2 →
  index_mbids idx1 = index_mbids idx2 →
  match for_each group_step l1 (idx1, b1), for_each group_step l2 (idx2, b2) with
  | Ok st1, Ok st2 => index_mbids st1.1 = index_mbids st2.1
  | Raise e1, Raise e2 => e1 = e2
  | _, _ => False
  end.
Proof.
  revert l2 idx1 idx2 b1 b2.
  induction l1 as [|r1 l1 IH]; intros [|r2 l2] idx1 idx2 b1 b2 Hl Hidx;
    try done.
  injection Hl as Hm Ha Hl. cbn [for_each].
  destruct (artist r1) as [a|] eqn:Ha1.
  - rewrite (group_step_artist _ _ _ _ Ha1).
    rewrite (group_step_artist idx2 b2 r2 a) by (by rewrite <- Ha).
    cbn [mbind result_bind]. apply IH; [done|].
    by apply index_mbids_append.
  - unfold group_step. rewrite <- Ha, Ha1. done.
Qed.

Lemma limit_step_unranked self (done_ : index) tape k v :
  limit_step self false (done_, tape) (k, v)
  = Ok (done_ ++ [(k, slice_to (count self) (shuffle v tape).1)],
        (shuffle v tape).2).
Proof. done. Qed.

(** The second loop without sorting, on two indexes that agree up to
    rankings, draws the same numbers and leaves the same mbids. *)
Lemma limit_loop_without_ranking self (idx1 idx2 done1 done2 : index) tape :
  index_mbids idx1 = index_mbids idx2 →
  index_mbids done1 = index_mbids done2 →
  ∃ lim1 lim2 tape',
    for_each (limit_step self false) idx1 (done1, tape) = Ok (lim1, tape') ∧
    for_each (limit_step self false) idx2 (done2, tape) = Ok (lim2, tape') ∧
    index_mbids lim1 = index_mbids lim2.
Proof.
  revert idx2 done1 done2 tape.
  induction idx1 as [|[k1 v1] idx1 IH]; intros [|[k2 v2] idx2] done1 done2 tape
    Hidx Hdone; try done.
  - by exists done1, done2, tape.
  - unfold index_mbids in Hidx. simpl in Hidx. injection Hidx as -> Hv Hrest.
    cbn [for_each]. rewrite !limit_step_unranked.
    cbn [mbind result_bind].
    assert ((shuffle v1 tape).2 = (shuffle v2 tape).2
            ∧ (shuffle v1 tape).1.*1 = (shuffle v2 tape).1.*1) as [Ht Hs].
    { pose proof (shuffle_fmap fst v1 tape) as H1.
      pose proof (shuffle_fmap fst v2 tape) as H2.
      rewrite Hv, H2 in H1. by injection H1 as Hs Ht. }
    rewrite Ht. apply IH; [done|].
    unfold index_mbids. rewrite !fmap_app. simpl.
    unfold index_mbids in Hdone. rewrite Hdone. do 3 f_equal.
    by rewrite !slice_to_fmap, Hs.
Qed.

Lemma survivors_index_mbids (idx : index) :
  survivors idx = index_mbids idx ≫= snd.
Proof.
  unfold survivors, index_mbids.
  induction idx as [|[k v] idx IH]; [done|].
  cbn [fmap list_fmap mbind list_bind]. by rewrite IH.
Qed.

Lemma filter_by_mbid (pass_recs : list string) (l : list Recording) :
  mbid <$> filter (λ r, mbid r ∈ pass_recs) l
  = filter (λ m, m ∈ pass_recs) (mbid <$> l).
Proof.
  induction l as [|r l IH]; [done|].
  cbn [fmap list_fmap]. rewrite !filter_cons.
  destruct (decide (mbid r ∈ pass_recs)); [|done].
  by rewrite fmap_cons, IH.
Qed.

End limiter_unranked.

(** X24: when a ranking is missing the rankings play no role.  Two inputs
    that agree on mbids and artists, each with some recording without
    ranking, give under the same random draws outputs with the same mbids
    (or the same exception). *)
Theorem limiter_unranked_ignores_rankings (self : ArtistCreditLimiterElement.t)
    (l1 l2 : list Recording) (tape : list nat) :
  without_ranking <$> l1 = without_ranking <$> l2 →
  ¬ all_ranked l1 → ¬ all_ranked l2 →
  result_mbids (ArtistCreditLimiterElement.read self [l1] tape)
  = result_mbids (ArtistCreditLimiterElement.read self [l2] tape).
Proof.
  intros Hl Hr1 Hr2.
  assert (mbid <$> l1 = mbid <$> l2) as Hmbids.
  { apply (f_equal (fmap fst)) in Hl.
    by rewrite <- !list_fmap_compose in Hl. }
  assert (artist <$> l1 = artist <$> l2) as Hartists.
  { apply (f_equal (fmap snd)) in Hl.
    by rewrite <- !list_fmap_compose in Hl. }
  destruct (decide (Forall has_artist l1)) as [Hart1|Hex].
  - assert (Forall has_artist l2) as Hart2.
    { assert (Forall is_Some (artist <$> l1)) as H
        by (apply Forall_fmap; exact Hart1).
      rewrite Hartists in H. apply Forall_forall. intros r Hr.
      apply (proj1 (Forall_forall _ _) H). by apply list_elem_of_fmap_2. }
    unfold ArtistCreditLimiterElement.read. cbn [inputs_0 mbind result_bind].
    pose proof (group_loop_without_ranking l1 l2 [] [] true true Hl eq_refl)
      as Hgroup.
    destruct (group_loop l1 [] true Hart1) as (idx1 & Hg1 & _).
    destruct (group_loop l2 [] true Hart2) as (idx2 & Hg2 & _).
    rewrite Hg1, Hg2 in Hgroup. rewrite Hg1, Hg2. simpl in Hgroup.
    cbn [mbind result_bind fst snd andb].
    rewrite !bool_decide_eq_false_2 by done.
    destruct (limit_loop_without_ranking self idx1 idx2 [] [] tape Hgroup
                eq_refl) as (lim1 & lim2 & tape' & -> & -> & Hlim).
    cbn [mbind result_bind result_mbids fst].
    rewrite !pass_recs_of_survivors, !select_filter. f_equal.
    rewrite !filter_by_mbid, Hmbids, !survivors_index_mbids.
    by rewrite Hlim.
  - apply not_Forall_Exists in Hex; [|apply _].
    assert (Exists (λ r, artist r = None) l1) as Hnone1.
    { eapply Exists_impl; [exact Hex|]. intros r Hr.
      destruct (artist r) as [a|] eqn:Ha; [|done].
      destruct Hr. unfold has_artist. rewrite Ha. by eexists. }
    assert (Exists (λ r, artist r = None) l2) as Hnone2.
    { assert (Exists (λ a, a = None) (artist <$> l1)) as H
        by (apply Exists_fmap; exact Hnone1).
      rewrite Hartists in H.
      apply Exists_exists in H as (a & (r & -> & Hr)%list_elem_of_fmap & Ha).
      apply Exists_exists. by exists r. }
    by rewrite !limiter_read_raises.
Qed.

Lemma limiter_unranked_ignores_rankings_witness :
  result_mbids
    (ArtistCreditLimiterElement.read (ArtistCreditLimiterElement.mk 1 true)
       [[rec_of "a" None (Some (ac 1)); rec_of "b" (Some 5) (Some (ac 1))]]
       [3%nat])
  = result_mbids
      (ArtistCreditLimiterElement.read (ArtistCreditLimiterElement.mk 1 true)
         [[rec_of "a" (Some 9) (Some (ac 1)); rec_of "b" None (Some (ac 1))]]
         [3%nat]).
Proof.
  apply limiter_unranked_ignores_rankings.
  - reflexivity.
  - intros [[? [=]] _]%Forall_cons.
  - intros [_ [[? [=]] _]%Forall_cons]%Forall_cons.
Defined.
